(** * ttsbotqm: the text sanitizer, the voice session and the speak queue

    A shallow embedding of the two bot variants of the repository:
    [Enhanced] is [src/index.js] (remote synthesis, MP3 download, stream
    probe) and [Basic] is the second source file (local voice engine, WAV
    transcode).  Both share [cleanText], [ensureJoinedVC] and the
    [speak] queue; the places where they differ are marked. *)

From Stdlib Require Import String Ascii.
From Stdlib Require Import List NArith ZArith Bool Arith Lia.
Import ListNotations.

Set Implicit Arguments.

(** ** JavaScript strings

    A JavaScript string is a sequence of UTF-16 code units; [length],
    [slice] and the regular expressions of the source (none has the [u]
    flag) all count code units. *)

Definition jsstring := list N.

(** An ASCII literal as code units. *)
Definition lit (s : string) : jsstring :=
  map N_of_ascii (list_ascii_of_string s).

Fixpoint jseqb (a b : jsstring) : bool :=
  match a, b with
  | [], [] => true
  | x :: a', y :: b' => N.eqb x y && jseqb a' b'
  | _, _ => false
  end.

(** [\d] and [\w] without the [i] and [u] flags. *)
Definition is_digit (c : N) : bool := (48 <=? c)%N && (c <=? 57)%N.

Definition is_word (c : N) : bool :=
  is_digit c || ((65 <=? c)%N && (c <=? 90)%N)
             || ((97 <=? c)%N && (c <=? 122)%N) || (c =? 95)%N.

(** [\s], which is also the set that [trim] strips: WhiteSpace and
    LineTerminator of the language specification. *)
Definition is_space (c : N) : bool :=
  ((9 <=? c)%N && (c <=? 13)%N) || (c =? 32)%N || (c =? 160)%N
  || (c =? 5760)%N || ((8192 <=? c)%N && (c <=? 8202)%N)
  || (c =? 8232)%N || (c =? 8233)%N || (c =? 8239)%N || (c =? 8287)%N
  || (c =? 12288)%N || (c =? 65279)%N.

Definition not_space (c : N) : bool := negb (is_space c).

(** ** The regular expressions of [cleanText]

    The five patterns only use single code units, classes, [?] on one
    unit and [+] on one class, so that fragment is what is embedded.
    Matching is greedy with backtracking, as in the language. *)

Inductive atom :=
| Chr (c : N)
| Cls (p : N -> bool).

Definition accepts (a : atom) (c : N) : bool :=
  match a with
  | Chr d => N.eqb c d
  | Cls p => p c
  end.

Inductive item :=
| One (a : atom)
| Opt (a : atom)
| Plus (a : atom).

Definition regex := list item.

(** [rmatch r s] is the length of the match of [r] anchored at the start
    of [s], if there is one. *)
Fixpoint rmatch (r : regex) : jsstring -> option nat :=
  match r with
  | [] => fun _ => Some 0
  | One a :: r' => fun s =>
      match s with
      | c :: t => if accepts a c then option_map S (rmatch r' t) else None
      | [] => None
      end
  | Opt a :: r' => fun s =>
      match s with
      | c :: t =>
          if accepts a c
          then match rmatch r' t with
               | Some n => Some (S n)
               | None => rmatch r' s
               end
          else rmatch r' s
      | [] => rmatch r' s
      end
  | Plus a :: r' =>
      fix plus (s : jsstring) : option nat :=
        match s with
        | c :: t =>
            if accepts a c
            then match plus t with
                 | Some n => Some (S n)
                 | None => option_map S (rmatch r' t)
                 end
            else None
        | [] => None
        end
  end.

Definition chars (s : string) : regex := map (fun c => One (Chr c)) (lit s).

(** [/<@[!&]?\d+>/] *)
Definition re_mention : regex :=
  chars "<@" ++ [Opt (Cls (fun c => (c =? 33)%N || (c =? 38)%N));
                 Plus (Cls is_digit)] ++ chars ">".

(** [/<#\d+>/] *)
Definition re_channel : regex :=
  chars "<#" ++ [Plus (Cls is_digit)] ++ chars ">".

(** [/<a?:\w+:\d+>/] *)
Definition re_emoji : regex :=
  chars "<" ++ [Opt (Chr 97)] ++ chars ":" ++ [Plus (Cls is_word)]
    ++ chars ":" ++ [Plus (Cls is_digit)] ++ chars ">".

(** [/https?:\/\/\S+/] *)
Definition re_url : regex :=
  chars "http" ++ [Opt (Chr 115)] ++ chars "://" ++ [Plus (Cls not_space)].

(** [/\s+/] *)
Definition re_ws : regex := [Plus (Cls is_space)].

(** [str.replace(re, rep)] for a pattern with the [g] flag: scan from the
    left; at a match emit [rep] and resume after the match, otherwise
    copy one unit.  [skip] counts the units of the current match that
    are still to be passed over.  None of the five patterns matches the
    empty string. *)
Fixpoint replace_from (r : regex) (rep : jsstring) (skip : nat)
    (s : jsstring) : jsstring :=
  match s with
  | [] => []
  | c :: t =>
      match skip with
      | S k => replace_from r rep k t
      | O =>
          match rmatch r s with
          | Some (S k) => rep ++ replace_from r rep k t
          | _ => c :: replace_from r rep 0 t
          end
      end
  end.

Definition replace_g (r : regex) (rep : jsstring) (s : jsstring) : jsstring :=
  replace_from r rep 0 s.

Fixpoint trim_start (s : jsstring) : jsstring :=
  match s with
  | c :: t => if is_space c then trim_start t else s
  | [] => []
  end.

Fixpoint trim_end (s : jsstring) : jsstring :=
  match s with
  | [] => []
  | c :: t =>
      match trim_end t with
      | [] => if is_space c then [] else [c]
      | t' => c :: t'
      end
  end.

Definition trim (s : jsstring) : jsstring := trim_end (trim_start s).

Definition someone : jsstring := Eval cbv in lit "someone".
Definition a_channel : jsstring := Eval cbv in lit "a channel".
Definition a_link : jsstring := Eval cbv in lit "a link".
Definition one_space : jsstring := Eval cbv in lit " ".

(** [cleanText], identical in both variants. *)
Definition cleanText (str : jsstring) : jsstring :=
  match str with
  | [] => []
  | _ =>
      trim
        (replace_g re_ws one_space
           (replace_g re_url a_link
              (replace_g re_emoji []
                 (replace_g re_channel a_channel
                    (replace_g re_mention someone str)))))
  end.

(** ** Configuration

    [MAX_LEN] and [SPEAK_PREFIX] are read from the environment by
    [src/index.js] only; the other variant fixes the maximum at 400 inside
    [speak] and has no prefix.  [MAX_LEN] is [Number(...)] of an
    environment string; integer settings are modelled. *)

Inductive variant := Enhanced | Basic.

Record config := mkConfig {
  TARGET_TEXT_CHANNEL_ID : jsstring;
  FIXED_VC_ID : option jsstring;
  MAX_LEN : Z;
  SPEAK_PREFIX : jsstring
}.

Definition default_config (target : jsstring) : config :=
  mkConfig target None 400 [].

Definition max_len (v : variant) (cfg : config) : Z :=
  match v with
  | Enhanced => MAX_LEN cfg
  | Basic => 400%Z
  end.

(** [s.slice(0, e)] for an integer [e]: a negative end counts from the
    end of the string, and the end is clamped to the length. *)
Definition slice0 (s : jsstring) (e : Z) : jsstring :=
  let len := Z.of_nat (length s) in
  let final := if (e <? 0)%Z then Z.max (len + e) 0 else Z.min e len in
  firstn (Z.to_nat final) s.

(** The marker appended to a clipped text: a space and U+2026. *)
Definition marker : jsstring := [32; 8230]%N.

(** [s.length > max ? s.slice(0, max) + marker : s] *)
Definition clip (max : Z) (s : jsstring) : jsstring :=
  if (max <? Z.of_nat (length s))%Z then slice0 s max ++ marker else s.

(** ** Voice session *)

Inductive ChannelType := GuildText | GuildVoice | GuildStageVoice | OtherChannel.

Definition is_voice_type (t : ChannelType) : bool :=
  match t with
  | GuildVoice | GuildStageVoice => true
  | _ => false
  end.

Record channel := mkChannel {
  ch_id : jsstring;
  ch_type : ChannelType;
  ch_guild : jsstring;
  ch_suppressed : bool          (* vc.guild.members.me?.voice?.suppress *)
}.

(** A connection object: [conn_uid] is its identity, the other two fields
    are its [joinConfig]. *)
Record voice_connection := mkConn {
  conn_uid : nat;
  channelId : jsstring;
  guildId : jsstring
}.

(** Calls made on the voice library and the console. *)
Inductive vcall :=
| JoinVoiceChannel (c : voice_connection)
| Destroy (uid : nat)
| Subscribe (uid : nat)
| SetSuppressed
| Warn
| LogError.

(** The module-level [connection] variable, the supply of object
    identities, and the calls made so far (oldest first). *)
Record vstate := mkV {
  connection : option voice_connection;
  next_uid : nat;
  vcalls : list vcall
}.

Definition vinit : vstate := mkV None 0 [].

Definition vcall_do (c : vcall) (st : vstate) : vstate :=
  mkV (connection st) (next_uid st) (vcalls st ++ [c]).

Definition set_connection (c : option voice_connection) (st : vstate) : vstate :=
  mkV c (next_uid st) (vcalls st).

(** What the argument [memberOrGuild] resolves to: the channel found for
    [FIXED_VC_ID] in the guild (cache or fetch), and the voice channel the
    member is in. *)
Record caller := mkCaller {
  fixed_channel : option channel;
  voice_channel : option channel
}.

Definition resolve_vc (cfg : config) (who : caller) : option channel :=
  match FIXED_VC_ID cfg with
  | Some _ =>
      match fixed_channel who with
      | Some vc => if is_voice_type (ch_type vc) then Some vc else None
      | None => None
      end
  | None => voice_channel who
  end.

(** [joinVoiceChannel({channelId, guildId, selfDeaf: true, selfMute:
    false, ...})], as the call that creates a connection object for the
    channel; the result is assigned to [connection].  The library is not
    part of the source: every call is taken to return a new object.
    (The library hands back the connection it still has for the guild,
    if any, so this is exact for a first join of a guild and for a join
    after [destroy].) *)
Definition joinVoiceChannel (vc : channel) (st : vstate) : vstate :=
  let c := mkConn (next_uid st) (ch_id vc) (ch_guild vc) in
  mkV (Some c) (S (next_uid st)) (vcalls st ++ [JoinVoiceChannel c]).

(** [try { if (connection) connection.destroy(); } catch {}] followed by
    [connection = null]. *)
Definition destroy_current (st : vstate) : vstate :=
  match connection st with
  | Some c => set_connection None (vcall_do (Destroy (conn_uid c)) st)
  | None => st
  end.

(** [ensureJoinedVC(memberOrGuild)].  [ready] is the outcome of
    [entersState(connection, Ready, 15000)].  Only [Enhanced] destroys an
    old connection before joining. *)
Definition ensureJoinedVC (v : variant) (cfg : config) (who : caller)
    (ready : bool) (st : vstate) : option voice_connection * vstate :=
  match resolve_vc cfg who with
  | None =>
      match FIXED_VC_ID cfg with
      | Some _ => (None, vcall_do Warn st)
      | None => (None, st)
      end
  | Some vc =>
      let same :=
        match connection st with
        | Some c => jseqb (channelId c) (ch_id vc)
        | None => false
        end in
      if same then (connection st, st)
      else
        let st1 := match v with
                   | Enhanced => destroy_current st
                   | Basic => st
                   end in
        let st2 := joinVoiceChannel vc st1 in
        if ready then
          let st3 := match connection st2 with
                     | Some c => vcall_do (Subscribe (conn_uid c)) st2
                     | None => st2
                     end in
          let st4 := match ch_type vc with
                     | GuildStageVoice =>
                         if ch_suppressed vc then vcall_do SetSuppressed st3
                         else st3
                     | _ => st3
                     end in
          (connection st4, st4)
        else
          (None, destroy_current (vcall_do LogError st2))
  end.

(** The [leave] command. *)
Definition leave (st : vstate) : vstate := destroy_current st.

(** Connections obtained from [joinVoiceChannel] and not destroyed since,
    read off the calls. *)
Fixpoint live_from (acc : list nat) (cs : list vcall) : list nat :=
  match cs with
  | [] => acc
  | JoinVoiceChannel c :: cs' => live_from (acc ++ [conn_uid c]) cs'
  | Destroy u :: cs' => live_from (filter (fun x => negb (Nat.eqb x u)) acc) cs'
  | _ :: cs' => live_from acc cs'
  end.

Definition live (st : vstate) : list nat := live_from [] (vcalls st).

(** Every [joinVoiceChannel] call is made while no earlier connection is
    live. *)
Fixpoint joins_alone_from (acc : list nat) (cs : list vcall) : bool :=
  match cs with
  | [] => true
  | JoinVoiceChannel c :: cs' =>
      match acc with
      | [] => joins_alone_from [conn_uid c] cs'
      | _ => false
      end
  | Destroy u :: cs' =>
      joins_alone_from (filter (fun x => negb (Nat.eqb x u)) acc) cs'
  | _ :: cs' => joins_alone_from acc cs'
  end.

Definition joins_alone (st : vstate) : bool := joins_alone_from [] (vcalls st).

(** ** Speak queue

    The process is single-threaded: a call of [speak], and the resumption
    of a suspended [speak] after an [await], each run to their next
    [await] without interruption.  One such run is one [step]. *)

Definition path := jsstring.

(** The local file system is the list of the paths that exist. *)
Definition fs_mem (p : path) (fs : list path) : bool := existsb (jseqb p) fs.

(** The file is created (or truncated). *)
Definition fs_create (p : path) (fs : list path) : list path :=
  if fs_mem p fs then fs else fs ++ [p].

(** The file is removed, as by a successful [unlink]; in
    [try { fs.unlinkSync(p); } catch {}] a missing file is no error to
    the caller. *)
Definition fs_unlink (p : path) (fs : list path) : list path :=
  filter (fun f => negb (jseqb p f)) fs.

(** Where an activation of the [while] loop of [speak] is suspended. *)
Inductive phase :=
| AwaitTts (next : jsstring)               (* await ttsToMp3(next) / ttsToWav(next) *)
| AwaitProbe (next : jsstring) (p : path)  (* await demuxProbe(readStream), index.js only *)
| AwaitIdle (next : jsstring) (p : path).  (* await the player's Idle event *)

(** What the queue does to the outside, oldest first in [log]. *)
Inductive effect :=
| EPush (it : jsstring)               (* queue.push(clipped) *)
| EShift (it : jsstring)              (* queue.shift() *)
| ESynth (it : jsstring)              (* the synthesizer is called on the item *)
| EFile (it : jsstring) (p : path)    (* the synthesizer wrote the file p and resolved with p *)
| EPlay (it : jsstring) (p : path)    (* player.play(resource) *)
| EIdle                               (* the player became Idle *)
| EUnlink (p : path)                  (* fs.unlink(p, ...) is called *)
| EUnlinked (p : path) (ok : bool)    (* that unlink completed: the file is removed, or it failed *)
| EError (it : jsstring).             (* console.error("TTS/play error:", e) *)

(** [queue] and [isSpeaking] are the two module-level variables; [loops]
    holds the suspended activations of the loop, [playing] the resource
    the player is on.  The other two fields are the surroundings of the
    program, not variables of it: [disk] holds the audio files the
    synthesizer has returned to the loop that exist, and [unlinking] the
    calls of [fs.unlink] that have not completed.  Only the synthesizer
    and the completion of an unlink write [disk] ([synth_settles],
    [unlink_settles]); the code of [speak] never does. *)
Record qstate := mkQ {
  queue : list jsstring;
  isSpeaking : bool;
  loops : list phase;
  playing : option path;
  disk : list path;
  unlinking : list path;
  log : list effect
}.

Definition qinit : qstate := mkQ [] false [] None [] [] [].

Definition emit (es : list effect) (st : qstate) : qstate :=
  mkQ (queue st) (isSpeaking st) (loops st) (playing st) (disk st)
    (unlinking st) (log st ++ es).

Definition set_queue (q : list jsstring) (st : qstate) : qstate :=
  mkQ q (isSpeaking st) (loops st) (playing st) (disk st) (unlinking st) (log st).

Definition set_isSpeaking (b : bool) (st : qstate) : qstate :=
  mkQ (queue st) b (loops st) (playing st) (disk st) (unlinking st) (log st).

Definition set_loops (l : list phase) (st : qstate) : qstate :=
  mkQ (queue st) (isSpeaking st) l (playing st) (disk st) (unlinking st) (log st).

Definition set_playing (p : option path) (st : qstate) : qstate :=
  mkQ (queue st) (isSpeaking st) (loops st) p (disk st) (unlinking st) (log st).

Definition set_disk (d : list path) (st : qstate) : qstate :=
  mkQ (queue st) (isSpeaking st) (loops st) (playing st) d (unlinking st) (log st).

Definition set_unlinking (u : list path) (st : qstate) : qstate :=
  mkQ (queue st) (isSpeaking st) (loops st) (playing st) (disk st) u (log st).

Definition suspend (ph : phase) (st : qstate) : qstate :=
  set_loops (loops st ++ [ph]) st.

(** [fs.unlink(p, () => {})]: the call only asks for the removal and
    returns; the file is removed later, when the unlink completes
    ([unlink_settles]), and the empty callback drops its error. *)
Definition unlink (p : path) (st : qstate) : qstate :=
  emit [EUnlink p] (set_unlinking (unlinking st ++ [p]) st).

(** What the synthesizer has done when its promise settles: a path it
    resolves with is the path of a file it wrote.  What a synthesizer
    that rejects leaves behind is not the loop's to know; see
    [ttsToMp3] and [ttsToWav]. *)
Definition synth_settles (next : jsstring) (r : option path) (st : qstate)
    : qstate :=
  match r with
  | Some p => emit [EFile next p] (set_disk (fs_create p (disk st)) st)
  | None => st
  end.

(** The completion of a call of [fs.unlink]: the file is removed, or the
    call fails and the file stays as it is. *)
Definition unlink_settles (p : path) (ok : bool) (st : qstate) : qstate :=
  emit [EUnlinked p ok] (if ok then set_disk (fs_unlink p (disk st)) st else st).

(** The [finally] block: [if (mp3Path) fs.unlink(mp3Path, ...)].  The
    path variable is unset ([None]) until the synthesizer has returned;
    the paths it returns are never the empty string. *)
Definition finally_unlink (audio : option path) (st : qstate) : qstate :=
  match audio with
  | Some p => unlink p st
  | None => st
  end.

(** The head of the [while] loop: leave it and clear [isSpeaking] when the
    queue is empty, otherwise shift the next item and call the
    synthesizer, which suspends the activation. *)
Definition loop_top (st : qstate) : qstate :=
  match queue st with
  | [] => set_isSpeaking false st
  | next :: rest =>
      suspend (AwaitTts next) (emit [EShift next; ESynth next] (set_queue rest st))
  end.

(** The part of [speak] before [queue.push]: the item to push, or [None]
    when [speak] returns at once.  Only [Enhanced] sanitizes and tests for
    the empty string here. *)
Definition prepare (v : variant) (cfg : config) (text : jsstring)
    : option jsstring :=
  match v with
  | Enhanced =>
      match cleanText text with
      | [] => None
      | cleaned => Some (clip (MAX_LEN cfg) cleaned)
      end
  | Basic => Some (clip 400 text)
  end.

(** [speak(text)] up to its first [await]. *)
Definition speak (v : variant) (cfg : config) (text : jsstring)
    (st : qstate) : qstate :=
  match prepare v cfg text with
  | None => st
  | Some clipped =>
      let st1 := emit [EPush clipped] (set_queue (queue st ++ [clipped]) st) in
      if isSpeaking st1 then st1
      else loop_top (set_isSpeaking true st1)
  end.

(** [player.play(resource)] and the wait for Idle, or, when creating or
    starting the resource throws, [catch] and [finally]. *)
Definition play_or_catch (next : jsstring) (p : path) (sync_ok : bool)
    (st : qstate) : qstate :=
  if sync_ok
  then suspend (AwaitIdle next p) (set_playing (Some p) (emit [EPlay next p] st))
  else loop_top (finally_unlink (Some p) (emit [EError next] st)).

(** Resumption after the synthesizer settled: [r] is the returned path, or
    [None] when it rejected, in which case [catch] logs and the path
    variable is still unset in [finally]. *)
Definition after_tts (v : variant) (next : jsstring) (r : option path)
    (sync_ok : bool) (st : qstate) : qstate :=
  match r with
  | None => loop_top (finally_unlink None (emit [EError next] st))
  | Some p =>
      match v with
      | Enhanced => suspend (AwaitProbe next p) st
      | Basic => play_or_catch next p sync_ok st
      end
  end.

(** Resumption after [demuxProbe] settled. *)
Definition after_probe (next : jsstring) (p : path) (ok sync_ok : bool)
    (st : qstate) : qstate :=
  play_or_catch next p (ok && sync_ok) st.

(** Resumption after the Idle listener fired: [finally], then the loop
    head. *)
Definition after_idle (p : path) (st : qstate) : qstate :=
  loop_top (finally_unlink (Some p) st).

(** What a turn of the event loop reacts to: a call of [speak]; the
    synthesizer's promise of the [i]-th suspended activation settling
    with a path or a rejection; its probe settling; the player's Idle
    event; the completion of the [i]-th pending unlink, which no code of
    the program waits for.  [sync_ok] says whether the synchronous calls
    that follow ([createAudioResource], [player.play]) return without
    throwing. *)
Inductive input :=
| CallSpeak (text : jsstring)
| TtsDone (i : nat) (r : option path) (sync_ok : bool)
| ProbeDone (i : nat) (ok sync_ok : bool)
| PlayerIdle
| UnlinkDone (i : nat) (ok : bool).

Fixpoint take_nth {A : Type} (i : nat) (l : list A) : option (A * list A) :=
  match l, i with
  | [], _ => None
  | x :: l', O => Some (x, l')
  | x :: l', S j =>
      match take_nth j l' with
      | Some (y, r) => Some (y, x :: r)
      | None => None
      end
  end.

Definition waits_idle (ph : phase) : bool :=
  match ph with
  | AwaitIdle _ _ => true
  | _ => false
  end.

Definition resume_idle (st : qstate) (ph : phase) : qstate :=
  match ph with
  | AwaitIdle _ p => after_idle p st
  | _ => st
  end.

(** One turn of the event loop.  A settled promise resumes the activation
    that awaits it, after what the synthesizer did; the player's Idle
    event runs every registered listener, in order; a completed unlink
    runs the empty callback. *)
Definition step (v : variant) (cfg : config) (st : qstate) (i : input)
    : qstate :=
  match i with
  | CallSpeak text => speak v cfg text st
  | TtsDone n r sync_ok =>
      match take_nth n (loops st) with
      | Some (AwaitTts next, others) =>
          after_tts v next r sync_ok (synth_settles next r (set_loops others st))
      | _ => st
      end
  | ProbeDone n ok sync_ok =>
      match take_nth n (loops st) with
      | Some (AwaitProbe next p, others) =>
          after_probe next p ok sync_ok (set_loops others st)
      | _ => st
      end
  | PlayerIdle =>
      match playing st with
      | None => st
      | Some _ =>
          fold_left resume_idle (filter waits_idle (loops st))
            (emit [EIdle]
               (set_playing None
                  (set_loops (filter (fun ph => negb (waits_idle ph)) (loops st)) st)))
      end
  | UnlinkDone n ok =>
      match take_nth n (unlinking st) with
      | Some (p, others) => unlink_settles p ok (set_unlinking others st)
      | None => st
      end
  end.

Definition run (v : variant) (cfg : config) (ins : list input) (st : qstate)
    : qstate :=
  fold_left (step v cfg) ins st.

(** *** Reading the log *)

Definition pushed (l : list effect) : list jsstring :=
  flat_map (fun e => match e with EPush x => [x] | _ => [] end) l.

Definition shifted (l : list effect) : list jsstring :=
  flat_map (fun e => match e with EShift x => [x] | _ => [] end) l.

Definition synthesized (l : list effect) : list jsstring :=
  flat_map (fun e => match e with ESynth x => [x] | _ => [] end) l.

Definition played (l : list effect) : list jsstring :=
  flat_map (fun e => match e with EPlay x _ => [x] | _ => [] end) l.

Definition errors (l : list effect) : list jsstring :=
  flat_map (fun e => match e with EError x => [x] | _ => [] end) l.

(** [subseq a b]: [a] is [b] with some elements left out. *)
Fixpoint subseq (a b : list jsstring) : bool :=
  match a, b with
  | [], _ => true
  | _ :: _, [] => false
  | x :: a', y :: b' => if jseqb x y then subseq a' b' else subseq a b'
  end.

(** No [EPlay] while an earlier one has not been followed by [EIdle];
    [busy] says whether the player is on a resource. *)
Fixpoint plays_apart (busy : bool) (l : list effect) : bool :=
  match l with
  | [] => true
  | EPlay _ _ :: l' => negb busy && plays_apart true l'
  | EIdle :: l' => plays_apart false l'
  | _ :: l' => plays_apart busy l'
  end.

(** The files the synthesizer returned, the files [fs.unlink] was called
    on, and the files whose unlink failed, each in the order of the
    events. *)
Definition returned (l : list effect) : list path :=
  flat_map (fun e => match e with EFile _ p => [p] | _ => [] end) l.

Definition released (l : list effect) : list path :=
  flat_map (fun e => match e with EUnlink p => [p] | _ => [] end) l.

Definition unlink_failed (l : list effect) : list path :=
  flat_map (fun e => match e with EUnlinked p false => [p] | _ => [] end) l.

(** The returned files on which [fs.unlink] has not been called after
    the effects [l], starting from [fs]; [None] if an item is shifted
    while there is one. *)
Fixpoint unreleased_after (fs : list path) (l : list effect)
    : option (list path) :=
  match l with
  | [] => Some fs
  | EFile _ p :: l' => unreleased_after (fs_create p fs) l'
  | EUnlink p :: l' => unreleased_after (fs_unlink p fs) l'
  | EShift _ :: l' =>
      match fs with
      | [] => unreleased_after fs l'
      | _ => None
      end
  | _ :: l' => unreleased_after fs l'
  end.

(** The returned files that exist after the effects [l], starting from
    [fs]: a file exists until an unlink of it has completed; [None] if an
    item is shifted while one exists. *)
Fixpoint alive_after (fs : list path) (l : list effect) : option (list path) :=
  match l with
  | [] => Some fs
  | EFile _ p :: l' => alive_after (fs_create p fs) l'
  | EUnlinked p true :: l' => alive_after (fs_unlink p fs) l'
  | EShift _ :: l' =>
      match fs with
      | [] => alive_after fs l'
      | _ => None
      end
  | _ :: l' => alive_after fs l'
  end.

(** The files the suspended activations hold in their path variable. *)
Definition held (ph : phase) : list path :=
  match ph with
  | AwaitTts _ => []
  | AwaitProbe _ p => [p]
  | AwaitIdle _ p => [p]
  end.

(** *** Driving one item to its end

    How the item being synthesized ends, and the inputs that make it end
    that way.  [Basic] has no probe: there [ProbeFails] and [PlayThrows]
    both stand for a throw between the synthesis and the wait for Idle. *)
Inductive outcome :=
| SynthFails
| ProbeFails (p : path)
| PlayThrows (p : path)
| Plays (p : path).

Definition inputs_of (v : variant) (o : outcome) : list input :=
  match v, o with
  | _, SynthFails => [TtsDone 0 None true]
  | Enhanced, ProbeFails p => [TtsDone 0 (Some p) true; ProbeDone 0 false true]
  | Basic, ProbeFails p => [TtsDone 0 (Some p) false]
  | Enhanced, PlayThrows p => [TtsDone 0 (Some p) true; ProbeDone 0 true false]
  | Basic, PlayThrows p => [TtsDone 0 (Some p) false]
  | Enhanced, Plays p => [TtsDone 0 (Some p) true; ProbeDone 0 true true; PlayerIdle]
  | Basic, Plays p => [TtsDone 0 (Some p) true; PlayerIdle]
  end.

Definition is_played (o : outcome) : bool :=
  match o with
  | Plays _ => true
  | _ => false
  end.

Fixpoint played_of (items : list jsstring) (outs : list outcome) : list jsstring :=
  match items, outs with
  | x :: items', o :: outs' =>
      if is_played o then x :: played_of items' outs' else played_of items' outs'
  | _, _ => []
  end.

(** Inputs that carry no failure the loop can see. *)
Definition succeeds (i : input) : bool :=
  match i with
  | CallSpeak _ => true
  | TtsDone _ (Some _) sync_ok => sync_ok
  | TtsDone _ None _ => false
  | ProbeDone _ ok sync_ok => ok && sync_ok
  | PlayerIdle => true
  | UnlinkDone _ _ => true
  end.

(** ** Handlers *)

Record world := mkW {
  voice : vstate;
  spk : qstate
}.

Definition winit : world := mkW vinit qinit.

Record message := mkMessage {
  author_bot : bool;               (* message.author.bot *)
  msg_channel_type : ChannelType;  (* message.channel.type *)
  msg_channel_id : jsstring;       (* message.channel.id *)
  content : jsstring;              (* message.content *)
  display : jsstring;              (* member?.displayName || author.username *)
  msg_who : caller
}.

(** [/^[!/]/.test(content)] *)
Definition looks_like_command (s : jsstring) : bool :=
  match s with
  | c :: _ => (c =? 33)%N || (c =? 47)%N
  | [] => false
  end.

Definition said : jsstring := Eval cbv in lit " said: ".

(** [connection || await ensureJoinedVC(...)] *)
Definition connection_or_join (v : variant) (cfg : config) (who : caller)
    (ready : bool) (st : vstate) : option voice_connection * vstate :=
  match connection st with
  | Some c => (Some c, st)
  | None => ensureJoinedVC v cfg who ready st
  end.

(** The [MessageCreate] handler. *)
Definition onMessageCreate (v : variant) (cfg : config) (m : message)
    (ready : bool) (w : world) : world :=
  if author_bot m then w
  else match msg_channel_type m with
  | GuildText =>
      if negb (jseqb (msg_channel_id m) (TARGET_TEXT_CHANNEL_ID cfg)) then w
      else if looks_like_command (content m) then w
      else
        let (ok, vs) := connection_or_join v cfg (msg_who m) ready (voice w) in
        match ok with
        | None => mkW vs (spk w)
        | Some _ =>
            match cleanText (content m) with
            | [] => mkW vs (spk w)
            | cleaned =>
                let prefix := match v with
                              | Enhanced => SPEAK_PREFIX cfg
                              | Basic => []
                              end in
                mkW vs (speak v cfg (prefix ++ display m ++ said ++ cleaned) (spk w))
            end
        end
  | _ => w
  end.

(** The [say] command of the [InteractionCreate] handler: [Enhanced]
    passes the prefixed text, [Basic] passes [cleanText(text)]. *)
Definition onSay (v : variant) (cfg : config) (text : jsstring) (who : caller)
    (ready : bool) (w : world) : world :=
  let (ok, vs) := connection_or_join v cfg who ready (voice w) in
  match ok with
  | None => mkW vs (spk w)
  | Some _ =>
      let arg := match v with
                 | Enhanced => SPEAK_PREFIX cfg ++ text
                 | Basic => cleanText text
                 end in
      mkW vs (speak v cfg arg (spk w))
  end.

(** ** Invariants of the speak queue *)

(** The flag [busy] after the effects [l]. *)
Fixpoint busy_end (busy : bool) (l : list effect) : bool :=
  match l with
  | [] => busy
  | EPlay _ _ :: l' => busy_end true l'
  | EIdle :: l' => busy_end false l'
  | _ :: l' => busy_end busy l'
  end.

Definition is_some {A : Type} (o : option A) : bool :=
  match o with
  | Some _ => true
  | None => false
  end.

(** The shape of the reachable states: no activation, nothing queued and
    nothing playing, or exactly one activation with [isSpeaking] set. *)
Definition good (st : qstate) : Prop :=
  match loops st with
  | [] => isSpeaking st = false /\ queue st = [] /\ playing st = None
  | [AwaitTts _] => isSpeaking st = true /\ playing st = None
  | [AwaitProbe _ _] => isSpeaking st = true /\ playing st = None
  | [AwaitIdle _ p] => isSpeaking st = true /\ playing st = Some p
  | _ => False
  end.

(** Where a file that exists may be: in the path variable of a suspended
    activation, among the pending unlinks, or among the failed ones. *)
Definition accounted (st : qstate) : list path :=
  flat_map held (loops st) ++ unlinking st ++ unlink_failed (log st).

Definition disk_ok (st : qstate) : Prop :=
  forall q, fs_mem q (disk st) = true -> fs_mem q (accounted st) = true.

(** The item that is shifted but not played yet. *)
Definition unplayed (st : qstate) : list jsstring :=
  match loops st with
  | [AwaitTts n] => [n]
  | [AwaitProbe n _] => [n]
  | _ => []
  end.

Record Inv (st : qstate) : Prop := mkInv {
  inv_good : good st;
  inv_fifo : shifted (log st) ++ queue st = pushed (log st);
  inv_synth : synthesized (log st) = shifted (log st);
  inv_apart : plays_apart false (log st) = true;
  inv_busy : busy_end false (log st) = is_some (playing st);
  inv_unreleased :
    unreleased_after [] (log st) = Some (flat_map held (loops st));
  inv_released :
    released (log st) ++ flat_map held (loops st) = returned (log st);
  inv_sub : exists done,
      shifted (log st) = done ++ unplayed st
      /\ subseq (played (log st)) done = true
}.

(** The state while an activation is executing between two awaits, at
    the point where it reaches the loop head. *)
Record Running (st : qstate) : Prop := mkRunning {
  run_loops : loops st = [];
  run_flag : isSpeaking st = true;
  run_playing : playing st = None;
  run_fifo : shifted (log st) ++ queue st = pushed (log st);
  run_synth : synthesized (log st) = shifted (log st);
  run_apart : plays_apart false (log st) = true;
  run_busy : busy_end false (log st) = false;
  run_unreleased : unreleased_after [] (log st) = Some [];
  run_released : released (log st) = returned (log st);
  run_sub : subseq (played (log st)) (shifted (log st)) = true
}.

(** ** Sequences of voice commands *)

Inductive vop :=
| OpJoin (who : caller) (ready : bool)   (* a call of ensureJoinedVC *)
| OpLeave.                               (* the leave command *)

Definition vstep (v : variant) (cfg : config) (st : vstate) (o : vop) : vstate :=
  match o with
  | OpJoin who ready => snd (ensureJoinedVC v cfg who ready st)
  | OpLeave => leave st
  end.

Definition vrun (v : variant) (cfg : config) (ops : list vop) (st : vstate)
    : vstate :=
  fold_left (vstep v cfg) ops st.

Definition current_uid (st : vstate) : list nat :=
  match connection st with
  | Some c => [conn_uid c]
  | None => []
  end.

Definition destroys (cs : list vcall) : list nat :=
  flat_map (fun c => match c with Destroy u => [u] | _ => [] end) cs.

(** ** Notions for the sanitizer *)

(** [r] matches somewhere in [s]. *)
Fixpoint has_match (r : regex) (s : jsstring) : bool :=
  is_some (rmatch r s)
  || match s with
     | [] => false
     | _ :: t => has_match r t
     end.

(** No mention, channel reference or custom emoji token occurs in [s]. *)
Definition no_token (s : jsstring) : bool :=
  negb (has_match re_mention s) && negb (has_match re_channel s)
  && negb (has_match re_emoji s).

(** Every white-space unit is a single U+0020 followed by a unit that is
    not white space ([spaced]), or by such a unit or the end of the string
    ([wspaced]). *)
Fixpoint spaced (s : jsstring) : bool :=
  match s with
  | [] => true
  | c :: t =>
      if is_space c
      then (c =? 32)%N
           && match t with [] => false | d :: _ => not_space d end
           && spaced t
      else spaced t
  end.

Fixpoint wspaced (s : jsstring) : bool :=
  match s with
  | [] => true
  | c :: t =>
      if is_space c
      then (c =? 32)%N
           && match t with [] => true | d :: _ => not_space d end
           && wspaced t
      else wspaced t
  end.

Definition starts_clean (s : jsstring) : bool :=
  match s with
  | [] => true
  | c :: _ => not_space c
  end.

(** A match of [r0] found after replacing the matches of [r] by [rep] was
    already there before. *)
Definition transfers (r : regex) (rep : jsstring) (r0 : regex) : Prop :=
  forall t, is_some (rmatch r0 (replace_g r rep t)) = true ->
            is_some (rmatch r0 t) = true.

(** ** The bot as a whole, with the suspension points of its handlers

    [ensureJoinedVC] awaits twice: the fetch of the fixed channel when the
    cache misses it, and [entersState].  The [say] command awaits its
    acknowledgement before it calls [speak].  Between a suspension and
    its resumption any other event may be handled. *)

(** [ensureJoinedVC] from the channel lookup to its first return or to
    [await entersState(...)]. *)
Inductive begun :=
| Returned (r : option voice_connection)
| Awaiting (vc : channel).

Definition ensureJoinedVC_begin (v : variant) (cfg : config) (who : caller)
    (st : vstate) : begun * vstate :=
  match resolve_vc cfg who with
  | None =>
      match FIXED_VC_ID cfg with
      | Some _ => (Returned None, vcall_do Warn st)
      | None => (Returned None, st)
      end
  | Some vc =>
      let same :=
        match connection st with
        | Some c => jseqb (channelId c) (ch_id vc)
        | None => false
        end in
      if same then (Returned (connection st), st)
      else
        let st1 := match v with
                   | Enhanced => destroy_current st
                   | Basic => st
                   end in
        (Awaiting vc, joinVoiceChannel vc st1)
  end.

(** [ensureJoinedVC] after [entersState] settled.  The [try] block works
    on the module-level [connection], whatever it is by then: when it is
    [null], [connection.subscribe] throws and the [catch] block runs, as
    it does when the connection did not become ready. *)
Definition ensureJoinedVC_resume (vc : channel) (ready : bool) (st : vstate)
    : option voice_connection * vstate :=
  let failed := (None, destroy_current (vcall_do LogError st)) in
  if ready then
    match connection st with
    | Some c =>
        let st3 := vcall_do (Subscribe (conn_uid c)) st in
        let st4 := match ch_type vc with
                   | GuildStageVoice =>
                       if ch_suppressed vc then vcall_do SetSuppressed st3
                       else st3
                   | _ => st3
                   end in
        (connection st4, st4)
    | None => failed
    end
  else failed.

Record interaction := mkInteraction {
  isChatInputCommand : bool;   (* interaction.isChatInputCommand() *)
  commandName : jsstring;      (* interaction.commandName *)
  opt_text : jsstring;         (* interaction.options.getString("text", true) *)
  in_guild : bool;             (* interaction.guild is not null *)
  int_who : caller
}.

(** What a handler that waits for [ensureJoinedVC] goes on to do. *)
Inductive cont :=
| KJoin                      (* the join command *)
| KSay (text : jsstring)     (* the say command *)
| KMessage (m : message).    (* the MessageCreate handler *)

Inductive waiter :=
| WFetch (who : caller) (k : cont)   (* await guild.channels.fetch(FIXED_VC_ID) *)
| WReady (vc : channel) (k : cont)   (* await entersState(connection, Ready, 15000) *)
| WReply (arg : jsstring).           (* await interaction.reply(...) of say *)

(** [b_replies] are the contents passed to [interaction.reply], oldest
    first. *)
Record bot := mkBot {
  b_voice : vstate;
  b_spk : qstate;
  b_waiting : list waiter;
  b_replies : list jsstring
}.

Definition binit : bot := mkBot vinit qinit [] [].

Definition set_voice (vs : vstate) (b : bot) : bot :=
  mkBot vs (b_spk b) (b_waiting b) (b_replies b).

Definition set_spk (q : qstate) (b : bot) : bot :=
  mkBot (b_voice b) q (b_waiting b) (b_replies b).

Definition set_waiting (ws : list waiter) (b : bot) : bot :=
  mkBot (b_voice b) (b_spk b) ws (b_replies b).

Definition wait (w : waiter) (b : bot) : bot :=
  set_waiting (b_waiting b ++ [w]) b.

Definition reply (content : jsstring) (b : bot) : bot :=
  mkBot (b_voice b) (b_spk b) (b_waiting b) (b_replies b ++ [content]).

Definition msg_joined (v : variant) (cfg : config) (c : voice_connection)
    : jsstring :=
  lit "Joined <#" ++ channelId c
    ++ match v with
       | Enhanced => lit ">. Reading from <#"
       | Basic => lit ">. Reading messages from <#"
       end
    ++ TARGET_TEXT_CHANNEL_ID cfg ++ lit ">.".

Definition msg_join_first : jsstring :=
  lit "Join a voice channel first (or set FIXED_VOICE_CHANNEL_ID), then use /join.".

Definition msg_left : jsstring := lit "Left the voice channel.".

Definition msg_not_connected : jsstring := lit "I am not in a voice channel.".

Definition msg_say_first : jsstring :=
  lit "Join a voice channel first (or set FIXED_VOICE_CHANNEL_ID), then try /say again.".

Definition msg_speaking (v : variant) : jsstring :=
  match v with
  | Enhanced => lit "Speaking" ++ [8230]%N
  | Basic => lit "Speaking your message" ++ [8230]%N
  end.

(** The argument [say] passes to [speak]. *)
Definition say_arg (v : variant) (cfg : config) (text : jsstring) : jsstring :=
  match v with
  | Enhanced => SPEAK_PREFIX cfg ++ text
  | Basic => cleanText text
  end.

(** The text the message handler passes to [speak]. *)
Definition message_text (v : variant) (cfg : config) (m : message)
    (cleaned : jsstring) : jsstring :=
  match v with
  | Enhanced => SPEAK_PREFIX cfg
  | Basic => []
  end ++ display m ++ said ++ cleaned.

(** A handler from the point where [ok] is known. *)
Definition handler_continue (v : variant) (cfg : config) (k : cont)
    (ok : option voice_connection) (b : bot) : bot :=
  match k with
  | KJoin =>
      match ok with
      | Some c => reply (msg_joined v cfg c) b
      | None => reply msg_join_first b
      end
  | KSay text =>
      match ok with
      | None => reply msg_say_first b
      | Some _ => wait (WReply (say_arg v cfg text)) (reply (msg_speaking v) b)
      end
  | KMessage m =>
      match ok with
      | None => b
      | Some _ =>
          match cleanText (content m) with
          | [] => b
          | cleaned =>
              set_spk (speak v cfg (message_text v cfg m cleaned) (b_spk b)) b
          end
      end
  end.

(** The part of [ensureJoinedVC] after the channel lookup, and the
    handler after it when it returns without waiting. *)
Definition ensure_sync (v : variant) (cfg : config) (who : caller) (k : cont)
    (b : bot) : bot :=
  match ensureJoinedVC_begin v cfg who (b_voice b) with
  | (Returned r, vs) => handler_continue v cfg k r (set_voice vs b)
  | (Awaiting vc, vs) => wait (WReady vc k) (set_voice vs b)
  end.

(** A call of [ensureJoinedVC]: with a fixed channel that is not in the
    cache ([hit] false) it first awaits the fetch. *)
Definition call_ensure (v : variant) (cfg : config) (who : caller) (k : cont)
    (hit : bool) (b : bot) : bot :=
  match FIXED_VC_ID cfg with
  | Some _ => if hit then ensure_sync v cfg who k b else wait (WFetch who k) b
  | None => ensure_sync v cfg who k b
  end.

(** [ensureJoinedVC(FIXED_VC_ID ? interaction.guild : interaction.member)]
    called for a command.  A command used outside a guild has no guild:
    with a fixed channel configured the argument is [null] and
    ["guild" in memberOrGuild] throws a [TypeError] before anything else
    is done; no handler catches it, so the handler ends there without a
    reply.  (Without a fixed channel the argument is the member, and
    [member?.voice?.channel] of no member is no channel.)  A message that
    passes the guards of the message handler was posted in a guild. *)
Definition command_ensure (v : variant) (cfg : config) (i : interaction)
    (k : cont) (hit : bool) (b : bot) : bot :=
  match FIXED_VC_ID cfg with
  | Some _ =>
      if in_guild i then call_ensure v cfg (int_who i) k hit b else b
  | None => call_ensure v cfg (int_who i) k hit b
  end.

(** [connection || await ensureJoinedVC(...)] and the rest of the
    message handler. *)
Definition with_connection (v : variant) (cfg : config) (who : caller)
    (k : cont) (hit : bool) (b : bot) : bot :=
  match connection (b_voice b) with
  | Some c => handler_continue v cfg k (Some c) b
  | None => call_ensure v cfg who k hit b
  end.

Definition on_message (v : variant) (cfg : config) (m : message) (hit : bool)
    (b : bot) : bot :=
  if author_bot m then b
  else match msg_channel_type m with
  | GuildText =>
      if negb (jseqb (msg_channel_id m) (TARGET_TEXT_CHANNEL_ID cfg)) then b
      else if looks_like_command (content m) then b
      else with_connection v cfg (msg_who m) (KMessage m) hit b
  | _ => b
  end.

Definition on_interaction (v : variant) (cfg : config) (i : interaction)
    (hit : bool) (b : bot) : bot :=
  if negb (isChatInputCommand i) then b
  else if jseqb (commandName i) (lit "join") then
    command_ensure v cfg i KJoin hit b
  else if jseqb (commandName i) (lit "leave") then
    match connection (b_voice b) with
    | Some _ => reply msg_left (set_voice (leave (b_voice b)) b)
    | None => reply msg_not_connected b
    end
  else if jseqb (commandName i) (lit "say") then
    match connection (b_voice b) with
    | Some c => handler_continue v cfg (KSay (opt_text i)) (Some c) b
    | None => command_ensure v cfg i (KSay (opt_text i)) hit b
    end
  else b.

(** The completions the speak loop waits for, and those of the unlinks
    it asked for. *)
Inductive completion :=
| CTts (i : nat) (r : option path) (sync_ok : bool)
| CProbe (i : nat) (ok sync_ok : bool)
| CIdle
| CUnlink (i : nat) (ok : bool).

Definition input_of (c : completion) : input :=
  match c with
  | CTts i r sync_ok => TtsDone i r sync_ok
  | CProbe i ok sync_ok => ProbeDone i ok sync_ok
  | CIdle => PlayerIdle
  | CUnlink i ok => UnlinkDone i ok
  end.

Inductive event :=
| OnMessage (m : message) (hit : bool)
| OnInteraction (i : interaction) (hit : bool)
| FetchSettled (n : nat)
| ReadySettled (n : nat) (ready : bool)
| ReplySettled (n : nat) (ok : bool)
| LoopSettled (c : completion).

(** One turn of the event loop of the whole bot.  When the
    acknowledgement of [say] fails, the handler ends there and [speak] is
    not called. *)
Definition bstep (v : variant) (cfg : config) (b : bot) (e : event) : bot :=
  match e with
  | OnMessage m hit => on_message v cfg m hit b
  | OnInteraction i hit => on_interaction v cfg i hit b
  | FetchSettled n =>
      match take_nth n (b_waiting b) with
      | Some (WFetch who k, rest) => ensure_sync v cfg who k (set_waiting rest b)
      | _ => b
      end
  | ReadySettled n ready =>
      match take_nth n (b_waiting b) with
      | Some (WReady vc k, rest) =>
          let (r, vs) := ensureJoinedVC_resume vc ready (b_voice b) in
          handler_continue v cfg k r (set_voice vs (set_waiting rest b))
      | _ => b
      end
  | ReplySettled n ok =>
      match take_nth n (b_waiting b) with
      | Some (WReply arg, rest) =>
          if ok then set_spk (speak v cfg arg (b_spk b)) (set_waiting rest b)
          else set_waiting rest b
      | _ => b
      end
  | LoopSettled c => set_spk (step v cfg (b_spk b) (input_of c)) b
  end.

Definition brun (v : variant) (cfg : config) (evs : list event) (b : bot) : bot :=
  fold_left (bstep v cfg) evs b.

Definition joins (cs : list vcall) : list voice_connection :=
  flat_map (fun c => match c with JoinVoiceChannel x => [x] | _ => [] end) cs.

(** ** Further readings of the log and of patterns *)

(** The items whose processing has ended, by a playback or by a logged
    error, in the order of these ends. *)
Definition settled (l : list effect) : list jsstring :=
  flat_map (fun e => match e with
                     | EPlay x _ => [x]
                     | EError x => [x]
                     | _ => []
                     end) l.

Definition atom_of (i : item) : atom :=
  match i with
  | One a => a
  | Opt a => a
  | Plus a => a
  end.

(** No item of the pattern accepts the unit [x]. *)
Definition rejects (r : regex) (x : N) : bool :=
  forallb (fun i => negb (accepts (atom_of i) x)) r.

(** ** The synthesizers and the files they write

    What the network and the external tools do is given from outside. *)

(** [path.join(os.tmpdir(), `tts_${Date.now()}_${random}` + ext)], for a
    temporary directory [dir] without trailing separator; [now] and [rnd]
    are the digits of the clock and of the random number. *)
Definition tts_path (dir now rnd ext : jsstring) : path :=
  dir ++ lit "/" ++ lit "tts_" ++ now ++ lit "_" ++ rnd ++ ext.

Inductive failure :=
| HttpStatus (code : Z)    (* new Error(`TTS HTTP ${res.statusCode}`) *)
| OtherError.              (* an error passed on from a library or a tool *)

Inductive promise (A : Type) :=
| Resolved (a : A)
| Rejected (e : failure).

Arguments Resolved {A} a.
Arguments Rejected {A} e.

(** A promise that is awaited settles, or it never does and the [await]
    never returns. *)
Inductive awaited (A : Type) :=
| Settles (r : promise A)
| NeverSettles.

Arguments Settles {A} r.
Arguments NeverSettles {A}.

(** What becomes of the body of a response that is piped into the file:
    it arrives whole and the write stream emits [finish]; or the request
    emits [error] before that; or neither ever happens, because the
    connection is cut or stalls without an error event. *)
Inductive body_end :=
| BodyWhole
| BodyError
| BodyStalls.

(** What [https.get] delivers to the callbacks of [downloadToFile]: a
    response with its status code, and what becomes of its body, or an
    [error] event before any response. *)
Inductive http_outcome :=
| Response (status : Z) (body : body_end)
| RequestError.

(** [downloadToFile(url, outPath)] (index.js).  [fs.createWriteStream]
    creates the file; it is taken to be open by the time the response or
    the error arrives.  Only a response with status 200 is piped into the
    file, and the promise is resolved only from the [finish] listener of
    the write stream; the other status codes and the [error] listener
    unlink the file and reject. *)
Definition downloadToFile (outPath : path) (o : http_outcome)
    (fs : list path) : awaited unit * list path :=
  let fs1 := fs_create outPath fs in
  match o with
  | Response status body =>
      if (status =? 200)%Z then
        match body with
        | BodyWhole => (Settles (Resolved tt), fs1)
        | BodyError => (Settles (Rejected OtherError), fs_unlink outPath fs1)
        | BodyStalls => (NeverSettles, fs1)
        end
      else (Settles (Rejected (HttpStatus status)), fs_unlink outPath fs1)
  | RequestError => (Settles (Rejected OtherError), fs_unlink outPath fs1)
  end.

(** [ttsToMp3(text)] (index.js): [url] is [None] when
    [googleTTS.getAudioUrl] throws. *)
Definition ttsToMp3 (dir now rnd : jsstring) (url : option http_outcome)
    (fs : list path) : awaited path * list path :=
  let mp3Path := tts_path dir now rnd (lit ".mp3") in
  match url with
  | None => (Settles (Rejected OtherError), fs)
  | Some o =>
      match downloadToFile mp3Path o fs with
      | (Settles (Resolved _), fs') => (Settles (Resolved mp3Path), fs')
      | (Settles (Rejected e), fs') => (Settles (Rejected e), fs')
      | (NeverSettles, fs') => (NeverSettles, fs')
      end
  end.

(** How an external tool ends: a failing tool may leave its output file
    behind. *)
Inductive tool_outcome :=
| ToolOk
| ToolFails (leaves_output : bool).

(** [ttsToWav(text)] (the other variant): [say.export] writes the CAF
    file, [afconvert] reads it and writes the WAV file. *)
Definition ttsToWav (dir now rnd : jsstring) (export convert : tool_outcome)
    (fs : list path) : promise path * list path :=
  let cafPath := tts_path dir now rnd (lit ".caf") in
  let wavPath := tts_path dir now rnd (lit ".wav") in
  let fs0 := fs_unlink wavPath (fs_unlink cafPath fs) in
  match export with
  | ToolFails partial =>
      (Rejected OtherError, if partial then fs_create cafPath fs0 else fs0)
  | ToolOk =>
      let fs1 := fs_create cafPath fs0 in
      match convert with
      | ToolFails partial =>
          let fs2 := if partial then fs_create wavPath fs1 else fs1 in
          (Rejected OtherError, fs_unlink cafPath fs2)
      | ToolOk =>
          (Resolved wavPath, fs_unlink cafPath (fs_create wavPath fs1))
      end
  end.

(** How far an iteration of the loop gets with the file it was given:
    the probe or the player never settles and [finally] is not reached;
    or [finally] has called [fs.unlink] and that unlink is pending, or
    has completed, with or without success. *)
Inductive unlink_end :=
| NotReached
| Pending
| Completed (ok : bool).

(** One iteration of the loop of [speak] in [src/index.js] as far as
    files go: the synthesis and, when it returned a path, the unlink
    that [finally] asks for. *)
Definition item_files (dir now rnd : jsstring) (url : option http_outcome)
    (u : unlink_end) (fs : list path) : list path :=
  match ttsToMp3 dir now rnd url fs with
  | (Settles (Resolved p), fs') =>
      match u with
      | Completed true => fs_unlink p fs'
      | _ => fs'
      end
  | (_, fs') => fs'
  end.

(** The same for the other variant, whose synthesizer is [ttsToWav]. *)
Definition item_files_wav (dir now rnd : jsstring)
    (export convert : tool_outcome) (fs : list path) : list path :=
  match ttsToWav dir now rnd export convert fs with
  | (Resolved p, fs') => fs_unlink p fs'
  | (Rejected _, fs') => fs'
  end.

(** * Properties *)

(** ** Sanitizer: a run of the source on a sample *)

Example cleanText_demo :
  cleanText (lit "  Hello <@!123>  see <#42> <a:wave:99> https://x.com/a?b=1 ok ")
  = lit "Hello someone see a channel a link ok".
Proof. vm_compute. reflexivity. Qed.

(** ** Strings *)

Lemma jseqb_refl (a : jsstring) : jseqb a a = true.
Proof.
  induction a as [|x a IH]; simpl; [reflexivity|].
  rewrite N.eqb_refl. exact IH.
Qed.

Lemma jseqb_eq (a b : jsstring) : jseqb a b = true <-> a = b.
Proof.
  split.
  - revert b. induction a as [|x a IH]; intros [|y b] H; simpl in H;
      try discriminate; [reflexivity|].
    apply andb_true_iff in H. destruct H as [Hx Hr].
    apply N.eqb_eq in Hx. f_equal; auto.
  - intros ->. apply jseqb_refl.
Qed.

Lemma jseqb_sym a : forall b, jseqb a b = jseqb b a.
Proof.
  induction a as [|x a IH]; intros [|y b]; simpl; try reflexivity.
  rewrite N.eqb_sym, IH. reflexivity.
Qed.

Lemma jseqb_neq a b : a <> b -> jseqb a b = false.
Proof.
  intros H. destruct (jseqb a b) eqn:E; [|reflexivity].
  apply jseqb_eq in E. contradiction.
Qed.

(** ** Files *)

Lemma fs_mem_app q a b : fs_mem q (a ++ b) = fs_mem q a || fs_mem q b.
Proof. apply existsb_app. Qed.

Lemma fs_mem_create p q fs :
  fs_mem q (fs_create p fs) = jseqb q p || fs_mem q fs.
Proof.
  unfold fs_create. destruct (fs_mem p fs) eqn:E.
  - destruct (jseqb q p) eqn:Eq; [|reflexivity].
    apply jseqb_eq in Eq. subst q. rewrite E. reflexivity.
  - rewrite fs_mem_app. simpl. rewrite orb_false_r. apply orb_comm.
Qed.

Lemma fs_mem_unlink p q fs :
  fs_mem q (fs_unlink p fs) = negb (jseqb q p) && fs_mem q fs.
Proof.
  unfold fs_mem, fs_unlink. induction fs as [|f fs IH]; simpl.
  - rewrite andb_false_r. reflexivity.
  - destruct (jseqb p f) eqn:E; simpl.
    + apply jseqb_eq in E. subst f. rewrite IH.
      destruct (jseqb q p); reflexivity.
    + rewrite IH. destruct (jseqb q f) eqn:Eq; simpl.
      * apply jseqb_eq in Eq. subst f. rewrite (jseqb_sym q p), E. reflexivity.
      * reflexivity.
Qed.

(** ** Speak queue: lemmas on the log *)

Lemma pushed_app l1 l2 : pushed (l1 ++ l2) = pushed l1 ++ pushed l2.
Proof. apply flat_map_app. Qed.

Lemma shifted_app l1 l2 : shifted (l1 ++ l2) = shifted l1 ++ shifted l2.
Proof. apply flat_map_app. Qed.

Lemma synthesized_app l1 l2 :
  synthesized (l1 ++ l2) = synthesized l1 ++ synthesized l2.
Proof. apply flat_map_app. Qed.

Lemma played_app l1 l2 : played (l1 ++ l2) = played l1 ++ played l2.
Proof. apply flat_map_app. Qed.

Lemma plays_apart_app l1 : forall b l2,
  plays_apart b (l1 ++ l2) = plays_apart b l1 && plays_apart (busy_end b l1) l2.
Proof.
  induction l1 as [|e l1 IH]; intros b l2; simpl; [reflexivity|].
  destruct e; simpl; rewrite ?IH; try reflexivity.
  apply andb_assoc.
Qed.

Lemma busy_end_app l1 : forall b l2,
  busy_end b (l1 ++ l2) = busy_end (busy_end b l1) l2.
Proof.
  induction l1 as [|e l1 IH]; intros b l2; simpl; [reflexivity|].
  destruct e; simpl; apply IH.
Qed.

Lemma returned_app l1 l2 : returned (l1 ++ l2) = returned l1 ++ returned l2.
Proof. apply flat_map_app. Qed.

Lemma released_app l1 l2 : released (l1 ++ l2) = released l1 ++ released l2.
Proof. apply flat_map_app. Qed.

Lemma unlink_failed_app l1 l2 :
  unlink_failed (l1 ++ l2) = unlink_failed l1 ++ unlink_failed l2.
Proof. apply flat_map_app. Qed.

Lemma unreleased_after_app l1 : forall fs l2,
  unreleased_after fs (l1 ++ l2) =
  match unreleased_after fs l1 with
  | Some fs' => unreleased_after fs' l2
  | None => None
  end.
Proof.
  induction l1 as [|e l1 IH]; intros fs l2; simpl; [reflexivity|].
  destruct e; simpl; try apply IH.
  destruct fs; [apply IH | reflexivity].
Qed.

Lemma alive_after_app l1 : forall fs l2,
  alive_after fs (l1 ++ l2) =
  match alive_after fs l1 with
  | Some fs' => alive_after fs' l2
  | None => None
  end.
Proof.
  induction l1 as [|e l1 IH]; intros fs l2; simpl; [reflexivity|].
  destruct e as [| | | | | | |p [|]|]; simpl; try apply IH.
  destruct fs; [apply IH | reflexivity].
Qed.

Lemma subseq_nil_l b : subseq [] b = true.
Proof. destruct b; reflexivity. Qed.

Lemma subseq_nil_r a : subseq a [] = true -> a = [].
Proof. destruct a; simpl; [reflexivity | discriminate]. Qed.

Lemma subseq_app_r b : forall a c,
  subseq a b = true -> subseq a (b ++ c) = true.
Proof.
  induction b as [|y b IH]; intros a c H.
  - apply subseq_nil_r in H. subst a. apply subseq_nil_l.
  - destruct a as [|x a]; [reflexivity|]. simpl in *.
    destruct (jseqb x y); apply IH; exact H.
Qed.

Lemma subseq_snoc b : forall a x,
  subseq a b = true -> subseq (a ++ [x]) (b ++ [x]) = true.
Proof.
  induction b as [|y b IH]; intros a x H.
  - apply subseq_nil_r in H. subst a. simpl. rewrite jseqb_refl. reflexivity.
  - destruct a as [|x' a]; simpl in *.
    + destruct (jseqb x y); [apply subseq_nil_l|].
      apply (IH [] x). apply subseq_nil_l.
    + destruct (jseqb x' y); [apply IH; exact H|].
      apply (IH (x' :: a) x). exact H.
Qed.

(** ** Speak queue: the invariant *)

Lemma Inv_qinit : Inv qinit.
Proof.
  split; simpl; auto.
  - repeat split; reflexivity.
  - exists []. split; reflexivity.
Qed.

Create Rewrite HintDb logdb.
#[local] Hint Rewrite pushed_app shifted_app synthesized_app played_app
  plays_apart_app busy_end_app unreleased_after_app alive_after_app
  returned_app released_app unlink_failed_app : logdb.

(** Push the readings of the log through the effects appended to it. *)
Ltac log_simpl := autorewrite with logdb; simpl; rewrite ?app_nil_r.

Ltac use_log_hyps :=
  repeat match goal with
  | H : plays_apart ?b ?l = _ |- context [plays_apart ?b ?l] => rewrite H
  | H : busy_end ?b ?l = _ |- context [busy_end ?b ?l] => rewrite H
  | H : unreleased_after ?f ?l = _ |- context [unreleased_after ?f ?l] =>
      rewrite H
  | H : synthesized ?l = _ |- context [synthesized ?l] => rewrite H
  end.

Ltac fin :=
  simpl; unfold good, unplayed; simpl; log_simpl;
  rewrite ?app_nil_r in *; use_log_hyps; simpl;
  rewrite ?jseqb_refl; simpl;
  try solve [ auto | repeat split; auto | congruence
            | rewrite <- ?app_assoc; simpl; congruence
            | rewrite ?app_assoc; congruence
            | eexists; split; [eassumption | assumption]
            | eexists; split; [reflexivity | assumption]
            | eexists; split; [symmetry; apply app_nil_r | assumption]
            | eexists; split; [symmetry; apply app_nil_r | ];
              match goal with H : shifted _ = _ |- _ => rewrite H end;
              first [ apply subseq_snoc | apply subseq_app_r ]; assumption
            | match goal with H : shifted _ = _ |- _ => rewrite H end;
              first [ apply subseq_snoc | apply subseq_app_r ]; assumption ].

(** Take a state apart along the four shapes that [good] allows. *)
Ltac shapes st Hg :=
  let n := fresh "n" in
  let p := fresh "p" in
  let lp := fresh "lp" in
  destruct st as [?q ?sp lp ?pl ?dk ?ul ?lg];
  unfold good, unplayed in *; simpl in *;
  destruct lp as [|[n|n p|n p] [|? ?]]; try contradiction;
  [ destruct Hg as (? & ? & ?) | destruct Hg as (? & ?)
  | destruct Hg as (? & ?) | destruct Hg as (? & ?) ];
  subst; simpl in *; rewrite ?app_nil_r in *; subst.

Lemma loop_top_Inv st : Running st -> Inv (loop_top st).
Proof.
  intros [Hl Hf Hp Hfifo Hsy Hap Hb Hal Hrel Hsub].
  destruct st as [q sp lp pl dk ul lg]. simpl in *. subst.
  unfold loop_top. simpl. destruct q as [|next rest]; simpl.
  - split; fin.
  - split; fin.
Qed.

Lemma speak_Inv v cfg text st : Inv st -> Inv (speak v cfg text st).
Proof.
  intros HI. unfold speak. destruct (prepare v cfg text) as [c|]; [|exact HI].
  destruct HI as [Hg Hfifo Hsy Hap Hb Hal Hrel [done [Hd Hsub]]].
  shapes st Hg.
  - (* no loop: this call becomes the consumer *)
    apply loop_top_Inv. split; fin. 
  - split; fin. 
  - split; fin. 
  - split; fin.
Qed.

Lemma take_nth_single {A : Type} (x : A) n :
  take_nth n [x] = match n with O => Some (x, []) | S _ => None end.
Proof. destruct n as [|[|n]]; reflexivity. Qed.

Lemma step_Inv v cfg st i : Inv st -> Inv (step v cfg st i).
Proof.
  intros HI. destruct i as [text|k r ok|k ok1 ok2| |k ok]; simpl.
  - apply speak_Inv. exact HI.
  - destruct HI as [Hg Hfifo Hsy Hap Hb Hal Hrel [done [Hd Hsub]]].
    shapes st Hg; rewrite ?take_nth_single; try destruct k; simpl;
      try solve [split; fin].
    unfold after_tts, play_or_catch.
    destruct r as [p|]; [destruct v; [|destruct ok]|]; simpl;
      try solve [split; fin]; try solve [apply loop_top_Inv; split; fin].
  - destruct HI as [Hg Hfifo Hsy Hap Hb Hal Hrel [done [Hd Hsub]]].
    shapes st Hg; rewrite ?take_nth_single; try destruct k; simpl;
      try solve [split; fin].
    unfold after_probe, play_or_catch.
    destruct (ok1 && ok2); simpl;
      try solve [split; fin]; try solve [apply loop_top_Inv; split; fin].
  - destruct HI as [Hg Hfifo Hsy Hap Hb Hal Hrel [done [Hd Hsub]]].
    shapes st Hg; simpl; try solve [split; fin].
    unfold after_idle.
    try solve [apply loop_top_Inv; split; fin].
  - destruct (take_nth k (unlinking st)) as [[p others]|]; [|exact HI].
    destruct HI as [Hg Hfifo Hsy Hap Hb Hal Hrel [done [Hd Hsub]]].
    unfold unlink_settles.
    shapes st Hg; destruct ok; simpl; split; fin.
Qed.

Lemma run_Inv v cfg ins : forall st, Inv st -> Inv (run v cfg ins st).
Proof.
  unfold run. induction ins as [|i ins IH]; intros st H; simpl; [exact H|].
  apply IH. apply step_Inv. exact H.
Qed.

Lemma reachable_Inv v cfg ins : Inv (run v cfg ins qinit).
Proof. apply run_Inv. apply Inv_qinit. Qed.

Lemma good_loops st :
  good st ->
  length (loops st) <= 1 /\ (isSpeaking st = true <-> length (loops st) = 1).
Proof.
  intros Hg. shapes st Hg; simpl; split; auto; split; intros; congruence.
Qed.

(** What a call of [speak] does while a loop is draining. *)
Lemma speak_while_draining v cfg text st :
  isSpeaking st = true ->
  let st' := speak v cfg text st in
  loops st' = loops st /\ isSpeaking st' = true
  /\ queue st' = queue st ++ match prepare v cfg text with
                             | Some c => [c]
                             | None => []
                             end
  /\ shifted (log st') = shifted (log st)
  /\ synthesized (log st') = synthesized (log st)
  /\ played (log st') = played (log st).
Proof.
  intros Hs. unfold speak. destruct (prepare v cfg text) as [c|]; simpl.
  - rewrite Hs. simpl. log_simpl. repeat split; auto.
  - rewrite app_nil_r. repeat split; auto.
Qed.

(** C1. In every state the event loop can reach, whatever the order of
    the [speak] calls and of the completions: at most one activation of
    the consumer loop exists, and one exists exactly when [isSpeaking] is
    set; no [player.play] is issued while an earlier resource has not
    reached Idle; and a [speak] call made while [isSpeaking] is set only
    appends its item to the queue (nothing, when the text is empty after
    sanitization in [Enhanced]): it starts no loop, shifts and
    synthesizes nothing. *)
Theorem C1_single_consumer (v : variant) (cfg : config) (ins : list input) :
  let st := run v cfg ins qinit in
  length (loops st) <= 1
  /\ (isSpeaking st = true <-> length (loops st) = 1)
  /\ plays_apart false (log st) = true
  /\ forall text, isSpeaking st = true ->
       let st' := step v cfg st (CallSpeak text) in
       loops st' = loops st /\ isSpeaking st' = true
       /\ queue st' = queue st ++ match prepare v cfg text with
                                  | Some c => [c]
                                  | None => []
                                  end
       /\ shifted (log st') = shifted (log st)
       /\ synthesized (log st') = synthesized (log st)
       /\ played (log st') = played (log st).
Proof.
  intros st. pose proof (reachable_Inv v cfg ins) as HI. fold st in HI.
  destruct (@good_loops st (inv_good HI)) as [Hle Hiff].
  split; [exact Hle|]. split; [exact Hiff|].
  split; [exact (inv_apart HI)|].
  intros text Hs. simpl. apply speak_while_draining. exact Hs.
Qed.

(** ** Speak queue: order of synthesis and playback *)

Lemma loop_top_played st :
  loops st = [] ->
  played (log st) = shifted (log st) ->
  played (log (loop_top st)) ++ unplayed (loop_top st)
  = shifted (log (loop_top st)).
Proof.
  intros Hl Hp. destruct st as [q sp lp pl dk ul lg]. simpl in *. subst.
  unfold loop_top, unplayed. destruct q as [|next rest]; simpl; log_simpl.
  - exact Hp.
  - rewrite Hp. reflexivity.
Qed.

(** While nothing fails, every shifted item is played, except the one in
    flight. *)
Lemma step_all_played v cfg st i :
  Inv st -> succeeds i = true ->
  played (log st) ++ unplayed st = shifted (log st) ->
  played (log (step v cfg st i)) ++ unplayed (step v cfg st i)
  = shifted (log (step v cfg st i)).
Proof.
  intros HI Hok HP. destruct HI as [Hg _ _ _ _ _ _ _].
  destruct i as [text|k r ok|k ok1 ok2| |k ok0]; simpl in *.
  - unfold speak. destruct (prepare v cfg text) as [c|]; [|exact HP].
    shapes st Hg; unfold unplayed; simpl; log_simpl;
      rewrite <- ?HP; rewrite ?app_nil_r; reflexivity.
  - destruct r as [p|]; [|discriminate]. subst ok.
    shapes st Hg; rewrite ?take_nth_single; try destruct k; simpl;
      try solve [unfold unplayed; simpl; rewrite ?app_nil_r; exact HP].
    unfold after_tts, play_or_catch, unplayed.
    destruct v; simpl; log_simpl; auto.
  - apply andb_true_iff in Hok. destruct Hok as [-> ->].
    shapes st Hg; rewrite ?take_nth_single; try destruct k; simpl;
      try solve [unfold unplayed; simpl; rewrite ?app_nil_r; exact HP].
    unfold unplayed. simpl. log_simpl. exact HP.
  - shapes st Hg; simpl;
      try solve [unfold unplayed; simpl; rewrite ?app_nil_r; exact HP].
    unfold after_idle. apply loop_top_played; simpl; log_simpl; auto.
  - destruct (take_nth k (unlinking st)) as [[p others]|]; [|exact HP].
    unfold unlink_settles, unplayed in *.
    destruct ok0; simpl; log_simpl; exact HP.
Qed.

Lemma run_all_played v cfg ins : forall st,
  Inv st -> forallb succeeds ins = true ->
  played (log st) ++ unplayed st = shifted (log st) ->
  let st' := run v cfg ins st in
  played (log st') ++ unplayed st' = shifted (log st').
Proof.
  unfold run. induction ins as [|i ins IH]; intros st HI Hall HP; simpl in *.
  - exact HP.
  - apply andb_true_iff in Hall. destruct Hall as [Hi Hall].
    apply IH; auto using step_Inv, step_all_played.
Qed.


(** ** Speak queue: failures *)

Lemma errors_app l1 l2 : errors (l1 ++ l2) = errors l1 ++ errors l2.
Proof. apply flat_map_app. Qed.

Lemma run_app v cfg i1 i2 st :
  run v cfg (i1 ++ i2) st = run v cfg i2 (run v cfg i1 st).
Proof. unfold run. apply fold_left_app. Qed.

(** Driving the item in flight to its end [o]: the loop moves on to the
    next queued item, or ends when there is none. *)
Lemma settle_item v cfg o st n :
  Inv st -> loops st = [AwaitTts n] ->
  let st' := run v cfg (inputs_of v o) st in
  loops st' = match queue st with [] => [] | c :: _ => [AwaitTts c] end
  /\ queue st' = tl (queue st)
  /\ synthesized (log st') = synthesized (log st) ++ firstn 1 (queue st)
  /\ played (log st') = played (log st) ++ (if is_played o then [n] else [])
  /\ errors (log st') = errors (log st) ++ (if is_played o then [] else [n]).
Proof.
  intros HI Hl. destruct HI as [Hg _ _ _ _ _ _ _].
  shapes st Hg; try discriminate. injection Hl as ->.
  destruct v, o, q as [|c rest]; simpl; rewrite ?jseqb_refl; simpl;
    rewrite ?errors_app; log_simpl; repeat split; reflexivity.
Qed.

(** Driving every remaining item to an end: the queue is drained in
    order whatever the ends are, and exactly the items that end in
    [Plays] are played. *)
Lemma drain v cfg : forall outs st n,
  Inv st -> loops st = [AwaitTts n] ->
  length outs = S (length (queue st)) ->
  let st' := run v cfg (flat_map (inputs_of v) outs) st in
  loops st' = [] /\ queue st' = [] /\ isSpeaking st' = false
  /\ synthesized (log st') = synthesized (log st) ++ queue st
  /\ played (log st') = played (log st) ++ played_of (n :: queue st) outs.
Proof.
  induction outs as [|o outs IH]; intros st n HI Hl Hlen; [discriminate|].
  simpl flat_map. rewrite run_app.
  pose proof (settle_item v cfg o HI Hl) as (Hl1 & Hq1 & Hs1 & Hp1 & _).
  pose proof (run_Inv v cfg (inputs_of v o) HI) as HI1.
  set (st1 := run v cfg (inputs_of v o) st) in *.
  destruct (queue st) as [|c rest] eqn:Hq; simpl in *.
  - destruct outs; [|discriminate]. simpl.
    pose proof (inv_good HI1) as Hg. unfold good in Hg. rewrite Hl1 in Hg.
    destruct Hg as (Hsp & _). repeat split; auto.
  - injection Hlen as Hlen.
    assert (Hlen1 : length outs = S (length (queue st1))) by (rewrite Hq1; exact Hlen).
    destruct (IH st1 c HI1 Hl1 Hlen1) as (A & B & C & D & E).
    rewrite A, B, C, D, E, Hs1, Hp1, Hq1. repeat split; auto.
    + rewrite <- app_assoc. reflexivity.
    + rewrite <- app_assoc. destruct (is_played o); reflexivity.
Qed.

(** C3. Take any reachable state in which the loop awaits the synthesis
    of item [b], and let [b] end in a failure [o] (the synthesizer
    rejects, the probe rejects, or starting the playback throws).  Then
    the error is logged, [b] is not played, and the loop goes on with the
    next queued item.  Driving the queued items to any ends [outs]
    afterwards, the synthesizer is called on every one of them in queue
    order, exactly those that end in [Plays] are played, in that order,
    and the loop ends with the queue empty and [isSpeaking] cleared. *)
Theorem C3_error_isolation (v : variant) (cfg : config) (ins : list input)
    (b : jsstring) (o : outcome) (outs : list outcome) :
  let st := run v cfg ins qinit in
  loops st = [AwaitTts b] ->
  is_played o = false ->
  length outs = length (queue st) ->
  let st1 := run v cfg (inputs_of v o) st in
  let st2 := run v cfg (flat_map (inputs_of v) outs) st1 in
  errors (log st1) = errors (log st) ++ [b]
  /\ played (log st1) = played (log st)
  /\ loops st1 = match queue st with [] => [] | c :: _ => [AwaitTts c] end
  /\ synthesized (log st2) = synthesized (log st) ++ queue st
  /\ played (log st2) = played (log st) ++ played_of (queue st) outs
  /\ loops st2 = [] /\ queue st2 = [] /\ isSpeaking st2 = false.
Proof.
  intros st Hl Ho Hlen st1 st2.
  pose proof (reachable_Inv v cfg ins) as HI. fold st in HI.
  pose proof (settle_item v cfg o HI Hl) as (Hl1 & Hq1 & Hs1 & Hp1 & He1).
  pose proof (run_Inv v cfg (inputs_of v o) HI) as HI1.
  fold st1 in Hl1, Hq1, Hs1, Hp1, He1, HI1. rewrite Ho in Hp1, He1.
  rewrite app_nil_r in Hp1.
  split; [exact He1|]. split; [exact Hp1|]. split; [exact Hl1|].
  destruct (queue st) as [|c rest] eqn:Hq.
  - destruct outs; [|discriminate].
    pose proof (inv_good HI1) as Hg. unfold good in Hg. rewrite Hl1 in Hg.
    destruct Hg as (Hsp & _).
    subst st2. simpl.
    rewrite Hs1, Hp1, Hl1, Hq1. simpl. rewrite !app_nil_r. auto.
  - assert (Hlen1 : length outs = S (length (queue st1))).
    { rewrite Hq1. exact Hlen. }
    destruct (drain v cfg outs HI1 Hl1 Hlen1) as (A & B & C & D & E).
    fold st2 in A, B, C, D, E.
    rewrite A, B, C, D, E, Hs1, Hp1, Hq1. simpl tl. simpl firstn.
    rewrite <- app_assoc. repeat split; reflexivity.
Qed.

Lemma C3_error_isolation_witness :
  let a := lit "A" in let b := lit "B" in let c := lit "C" in
  let ins := [CallSpeak a; CallSpeak b; CallSpeak c]
               ++ inputs_of Enhanced (Plays (lit "a.mp3")) in
  let st := run Enhanced (default_config (lit "1")) ins qinit in
  let st1 := run Enhanced (default_config (lit "1")) (inputs_of Enhanced SynthFails) st in
  let st2 := run Enhanced (default_config (lit "1"))
               (flat_map (inputs_of Enhanced) [Plays (lit "c.mp3")]) st1 in
  loops st = [AwaitTts b]
  /\ errors (log st1) = [b]
  /\ synthesized (log st2) = [a; b; c]
  /\ played (log st2) = [a; c]
  /\ loops st2 = [] /\ isSpeaking st2 = false.
Proof.
  intros a b c ins st st1 st2.
  pose proof (@C3_error_isolation Enhanced (default_config (lit "1")) ins b
                SynthFails [Plays (lit "c.mp3")] eq_refl eq_refl eq_refl)
    as (H1 & _ & _ & H4 & H5 & H6 & _ & H8).
  split; [reflexivity|]. split; [exact H1|]. split; [exact H4|].
  split; [exact H5|]. split; [exact H6 | exact H8].
Defined.


(** ** Speak queue: temporary audio files *)

Lemma take_nth_mem n : forall (l : list path) p others q,
  take_nth n l = Some (p, others) ->
  fs_mem q l = jseqb q p || fs_mem q others.
Proof.
  induction n as [|n IH]; intros [|x l] p others q H; simpl in H;
    try discriminate.
  - injection H as H1 H2. subst. reflexivity.
  - destruct (take_nth n l) as [[y r]|] eqn:E; [|discriminate].
    injection H as H1 H2. subst. simpl. rewrite (IH _ _ _ q E).
    destruct (jseqb q x), (jseqb q p); reflexivity.
Qed.

Lemma disk_ok_ext st st' :
  disk st' = disk st -> accounted st' = accounted st ->
  disk_ok st -> disk_ok st'.
Proof. unfold disk_ok. intros -> ->. auto. Qed.

Lemma loop_top_accounted st :
  disk (loop_top st) = disk st /\ accounted (loop_top st) = accounted st.
Proof.
  unfold loop_top, accounted. destruct (queue st); simpl; [auto|].
  split; [reflexivity|].
  rewrite flat_map_app, unlink_failed_app. simpl. rewrite !app_nil_r.
  reflexivity.
Qed.

Lemma loop_top_disk_ok st : disk_ok st -> disk_ok (loop_top st).
Proof.
  destruct (loop_top_accounted st) as [Hd Ha]. apply disk_ok_ext; assumption.
Qed.

Lemma speak_disk_ok v cfg text st : disk_ok st -> disk_ok (speak v cfg text st).
Proof.
  intros H. unfold speak. destruct (prepare v cfg text) as [c|]; [|exact H].
  assert (H1 : disk_ok (emit [EPush c] (set_queue (queue st ++ [c]) st))).
  { revert H. apply disk_ok_ext; [reflexivity|].
    unfold accounted. simpl. rewrite unlink_failed_app. simpl.
    rewrite app_nil_r. reflexivity. }
  simpl. destruct (isSpeaking st); [exact H1|].
  apply loop_top_disk_ok. revert H1. apply disk_ok_ext; reflexivity.
Qed.

(** Decide a goal about memberships by cases on every membership test
    that occurs in it. *)
Ltac mem_cases :=
  repeat match goal with
  | |- context [jseqb ?a ?b] => destruct (jseqb a b); simpl
  | |- context [fs_mem ?a ?b] => destruct (fs_mem a b); simpl
  end;
  try solve [ auto | intros; discriminate | intros; congruence ].

Ltac disk_fin Hd :=
  let q := fresh "q" in
  let Hq := fresh "Hq" in
  unfold disk_ok, accounted in *; simpl in *;
  intros q Hq; specialize (Hd q); revert Hd Hq;
  autorewrite with logdb; simpl; rewrite ?app_nil_r;
  repeat rewrite ?fs_mem_app, ?fs_mem_create, ?fs_mem_unlink;
  simpl; mem_cases.

Lemma step_disk_ok v cfg st i :
  Inv st -> disk_ok st -> disk_ok (step v cfg st i).
Proof.
  intros HI Hd. destruct HI as [Hg _ _ _ _ _ _ _].
  destruct i as [text|k r ok|k ok1 ok2| |k ok]; simpl.
  - apply speak_disk_ok. exact Hd.
  - shapes st Hg; rewrite ?take_nth_single; try destruct k; simpl;
      try exact Hd.
    unfold after_tts, play_or_catch.
    destruct r as [p|]; [destruct v; [|destruct ok]|]; simpl;
      try apply loop_top_disk_ok; disk_fin Hd.
  - shapes st Hg; rewrite ?take_nth_single; try destruct k; simpl;
      try exact Hd.
    unfold after_probe, play_or_catch.
    destruct (ok1 && ok2); simpl; try apply loop_top_disk_ok; disk_fin Hd.
  - shapes st Hg; simpl; try exact Hd.
    unfold after_idle. apply loop_top_disk_ok. disk_fin Hd.
  - destruct (take_nth k (unlinking st)) as [[p others]|] eqn:E; [|exact Hd].
    unfold unlink_settles.
    pose proof (fun q => @take_nth_mem k (unlinking st) p others q E) as Hm.
    destruct ok; unfold disk_ok, accounted in *; simpl in *;
      intros q Hq; specialize (Hd q); specialize (Hm q); revert Hd Hq;
      autorewrite with logdb; simpl; rewrite ?app_nil_r;
      repeat rewrite ?fs_mem_app, ?fs_mem_create, ?fs_mem_unlink;
      simpl; rewrite Hm; mem_cases.
Qed.

Lemma run_disk_ok v cfg ins : forall st,
  Inv st -> disk_ok st -> disk_ok (run v cfg ins st).
Proof.
  unfold run. induction ins as [|i ins IH]; intros st HI Hd; simpl; [exact Hd|].
  apply IH; [apply step_Inv | apply step_disk_ok]; assumption.
Qed.

Lemma reachable_disk_ok v cfg ins : disk_ok (run v cfg ins qinit).
Proof.
  apply run_disk_ok; [apply Inv_qinit|]. intros q H. discriminate.
Qed.

Lemma held_at_most_one st : good st -> length (flat_map held (loops st)) <= 1.
Proof. intros Hg. shapes st Hg; simpl; lia. Qed.



Example artifact_trace :
  log (run Enhanced (default_config (lit "1"))
         ([CallSpeak (lit "A"); CallSpeak (lit "B")]
            ++ inputs_of Enhanced (ProbeFails (lit "a.mp3"))
            ++ inputs_of Enhanced (Plays (lit "b.mp3"))
            ++ [UnlinkDone 1 true; UnlinkDone 0 false]) qinit)
  = [EPush (lit "A"); EShift (lit "A"); ESynth (lit "A"); EPush (lit "B");
     EFile (lit "A") (lit "a.mp3"); EError (lit "A"); EUnlink (lit "a.mp3");
     EShift (lit "B"); ESynth (lit "B");
     EFile (lit "B") (lit "b.mp3"); EPlay (lit "B") (lit "b.mp3");
     EIdle; EUnlink (lit "b.mp3");
     EUnlinked (lit "b.mp3") true; EUnlinked (lit "a.mp3") false].
Proof. vm_compute. reflexivity. Qed.

(** ** Voice session *)

Lemma live_from_app l1 : forall acc l2,
  live_from acc (l1 ++ l2) = live_from (live_from acc l1) l2.
Proof.
  induction l1 as [|c l1 IH]; intros acc l2; simpl; [reflexivity|].
  destruct c; apply IH.
Qed.

Lemma joins_alone_from_app l1 : forall acc l2,
  joins_alone_from acc (l1 ++ l2)
  = joins_alone_from acc l1 && joins_alone_from (live_from acc l1) l2.
Proof.
  induction l1 as [|c l1 IH]; intros acc l2; simpl; [reflexivity|].
  destruct c; try apply IH.
  destruct acc; [apply IH | reflexivity].
Qed.

(** A call that finds the connection on the target channel returns it and
    changes nothing. *)
Lemma ensureJoinedVC_same v cfg who ready st vc c :
  resolve_vc cfg who = Some vc ->
  connection st = Some c ->
  channelId c = ch_id vc ->
  ensureJoinedVC v cfg who ready st = (Some c, st).
Proof.
  intros Hr Hc Hid. unfold ensureJoinedVC. rewrite Hr, Hc, Hid, jseqb_refl.
  reflexivity.
Qed.

(** A call that returns a connection leaves it in [connection], joined to
    the target channel. *)
Lemma ensureJoinedVC_some v cfg who ready st c st1 :
  ensureJoinedVC v cfg who ready st = (Some c, st1) ->
  connection st1 = Some c
  /\ exists vc, resolve_vc cfg who = Some vc /\ channelId c = ch_id vc.
Proof.
  unfold ensureJoinedVC. destruct (resolve_vc cfg who) as [vc|] eqn:Hr.
  - destruct (connection st) as [c0|] eqn:Hc.
    + destruct (jseqb (channelId c0) (ch_id vc)) eqn:He.
      * intros H. injection H as <- <-. split; [exact Hc|].
        exists vc. split; [reflexivity|]. apply jseqb_eq. exact He.
      * destruct ready; [|discriminate].
        destruct v, (ch_type vc), (ch_suppressed vc); simpl;
          intros H; injection H as <- <-; simpl;
          (split; [reflexivity | exists vc; split; reflexivity]).
    + destruct ready; [|unfold destroy_current; simpl; discriminate].
      destruct v, (ch_type vc), (ch_suppressed vc); simpl;
        unfold destroy_current; rewrite ?Hc; simpl;
        intros H; injection H as <- <-; simpl;
        (split; [reflexivity | exists vc; split; reflexivity]).
  - destruct (FIXED_VC_ID cfg); discriminate.
Qed.



(** *** One connection at a time *)

(** In [Enhanced] the live connections are the one in [connection], and
    each join was issued with none live. *)
Lemma vstep_enhanced cfg st o :
  live st = current_uid st /\ joins_alone st = true ->
  live (vstep Enhanced cfg st o) = current_uid (vstep Enhanced cfg st o)
  /\ joins_alone (vstep Enhanced cfg st o) = true.
Proof.
  intros [Hl Hj]. destruct st as [conn nu cs].
  unfold live, joins_alone, current_uid in *. simpl in *.
  destruct o as [who ready|]; simpl.
  - unfold ensureJoinedVC.
    destruct (resolve_vc cfg who) as [vc|].
    + destruct conn as [c0|]; simpl.
      * destruct (jseqb (channelId c0) (ch_id vc)); simpl; [auto|].
        destruct ready, (ch_type vc), (ch_suppressed vc); simpl;
          unfold destroy_current; simpl;
          repeat (progress (rewrite ?live_from_app, ?joins_alone_from_app,
                              ?Hl, ?Hj; simpl; rewrite ?Nat.eqb_refl; simpl));
          auto.
      * destruct ready, (ch_type vc), (ch_suppressed vc); simpl;
          unfold destroy_current; simpl;
          repeat (progress (rewrite ?live_from_app, ?joins_alone_from_app,
                              ?Hl, ?Hj; simpl; rewrite ?Nat.eqb_refl; simpl));
          auto.
    + destruct (FIXED_VC_ID cfg); simpl;
        repeat (progress (rewrite ?live_from_app, ?joins_alone_from_app,
                            ?Hl, ?Hj; simpl));
        auto.
  - unfold leave, destroy_current. simpl. destruct conn as [c0|]; simpl.
    + repeat (progress (rewrite ?live_from_app, ?joins_alone_from_app,
                          ?Hl, ?Hj; simpl; rewrite ?Nat.eqb_refl; simpl));
      auto.
    + auto.
Qed.

Lemma vrun_enhanced cfg ops : forall st,
  live st = current_uid st /\ joins_alone st = true ->
  live (vrun Enhanced cfg ops st) = current_uid (vrun Enhanced cfg ops st)
  /\ joins_alone (vrun Enhanced cfg ops st) = true.
Proof.
  unfold vrun. induction ops as [|o ops IH]; intros st H; simpl; [exact H|].
  apply IH. apply vstep_enhanced. exact H.
Qed.

(** In [src/index.js], over any sequence of joins and leaves, at most one
    connection is live, and no join is issued while one is. *)
Lemma enhanced_one_connection cfg ops :
  let st := vrun Enhanced cfg ops vinit in
  length (live st) <= 1 /\ live st = current_uid st /\ joins_alone st = true.
Proof.
  intros st.
  destruct (@vrun_enhanced cfg ops vinit) as [Hl Hj]; [split; reflexivity|].
  fold st in Hl, Hj. split; [|split; assumption].
  rewrite Hl. unfold current_uid. destruct (connection st); simpl; lia.
Qed.

(** C5. The claim fails in the [Basic] variant: its [ensureJoinedVC]
    overwrites [connection] with the result of [joinVoiceChannel] and
    never destroys the old connection.  Joining channel 100 of guild 1
    and then channel 200 of guild 2 leaves both connections live, with no
    [destroy] call at all; the same two calls in [Enhanced] destroy
    connection 0 before creating connection 1. *)
Theorem C5_basic_rejoin_keeps_old_connection :
  let x := mkChannel (lit "100") GuildVoice (lit "1") false in
  let y := mkChannel (lit "200") GuildVoice (lit "2") false in
  let cfg := default_config (lit "9") in
  let ops := [OpJoin (mkCaller None (Some x)) true;
              OpJoin (mkCaller None (Some y)) true] in
  (live (vrun Basic cfg ops vinit) = [0; 1]
   /\ destroys (vcalls (vrun Basic cfg ops vinit)) = []
   /\ joins_alone (vrun Basic cfg ops vinit) = false)
  /\ (live (vrun Enhanced cfg ops vinit) = [1]
      /\ destroys (vcalls (vrun Enhanced cfg ops vinit)) = [0]
      /\ joins_alone (vrun Enhanced cfg ops vinit) = true).
Proof. vm_compute. repeat split; reflexivity. Qed.

(** ** Truncation *)

Lemma slice0_firstn (s : jsstring) (m : Z) :
  (0 <= m)%Z -> slice0 s m = firstn (Z.to_nat m) s.
Proof.
  intros Hm. unfold slice0.
  destruct (m <? 0)%Z eqn:E; [apply Z.ltb_lt in E; lia|].
  destruct (Z.le_ge_cases m (Z.of_nat (length s))) as [H|H].
  - rewrite Z.min_l by exact H. reflexivity.
  - rewrite Z.min_r by exact H. rewrite Nat2Z.id.
    rewrite firstn_all. symmetry. apply firstn_all2. lia.
Qed.

Lemma clip_long (s : jsstring) (m : Z) :
  (0 <= m)%Z -> Z.to_nat m < length s ->
  clip m s = firstn (Z.to_nat m) s ++ marker.
Proof.
  intros Hm Hl. unfold clip.
  destruct (m <? Z.of_nat (length s))%Z eqn:E.
  - rewrite slice0_firstn by exact Hm. reflexivity.
  - apply Z.ltb_ge in E. lia.
Qed.

Lemma clip_short (s : jsstring) (m : Z) :
  (0 <= m)%Z -> length s <= Z.to_nat m -> clip m s = s.
Proof.
  intros Hm Hl. unfold clip.
  destruct (m <? Z.of_nat (length s))%Z eqn:E; [|reflexivity].
  apply Z.ltb_lt in E. lia.
Qed.

Lemma speak_pushed v cfg text st item :
  prepare v cfg text = Some item ->
  pushed (log (speak v cfg text st)) = pushed (log st) ++ [item].
Proof.
  intros Hp. unfold speak. rewrite Hp. simpl.
  destruct (isSpeaking st); simpl; [log_simpl; reflexivity|].
  unfold loop_top. simpl.
  destruct (queue st ++ [item]) as [|next rest]; simpl; log_simpl;
    reflexivity.
Qed.

(** C7. Let [s] be the text [speak] clips (the sanitized text in
    [Enhanced], the argument itself in [Basic]) and [n] the maximum in
    force, which is 400 unless configured otherwise.  Whenever [speak]
    pushes an item, that item is the first [n] code units of [s] followed
    by the marker (a space and U+2026) if [s] is longer than [n], and is
    [s] itself, without marker, if [s] has at most [n] code units. *)
Theorem C7_truncation (v : variant) (cfg : config) (text : jsstring)
    (st : qstate) (item : jsstring) :
  (0 <= max_len v cfg)%Z ->
  prepare v cfg text = Some item ->
  let s := match v with Enhanced => cleanText text | Basic => text end in
  let n := Z.to_nat (max_len v cfg) in
  pushed (log (speak v cfg text st)) = pushed (log st) ++ [item]
  /\ (n < length s -> item = firstn n s ++ marker)
  /\ (length s <= n -> item = s).
Proof.
  intros Hm Hp s n. split; [apply speak_pushed; exact Hp|].
  assert (Hi : item = clip (max_len v cfg) s).
  { subst s. destruct v; simpl in *.
    - destruct (cleanText text); [discriminate|]. congruence.
    - congruence. }
  rewrite Hi. split; intros H.
  - apply clip_long; assumption.
  - apply clip_short; assumption.
Qed.

Lemma C7_truncation_witness :
  let text := repeat 120%N 450 in
  let item := repeat 120%N 400 ++ marker in
  pushed (log (speak Enhanced (default_config (lit "1")) text qinit)) = [item]
  /\ length item = 402.
Proof.
  intros text item.
  destruct (@C7_truncation Enhanced (default_config (lit "1")) text qinit item)
    as (H1 & H2 & H3).
  - simpl. lia.
  - vm_compute. reflexivity.
  - split; [exact H1 | reflexivity].
Defined.

(** ** Empty text *)

(** In [src/index.js] a text that is empty after sanitization makes
    [speak] return before it touches the queue. *)
Lemma speak_enhanced_empty cfg text st :
  cleanText text = [] -> speak Enhanced cfg text st = st.
Proof. intros H. unfold speak, prepare. rewrite H. reflexivity. Qed.

(** The message handler of both variants never passes [speak] an empty
    sanitized content. *)
Lemma onMessageCreate_empty v cfg m ready w :
  cleanText (content m) = [] ->
  spk (onMessageCreate v cfg m ready w) = spk w.
Proof.
  intros H. unfold onMessageCreate.
  destruct (author_bot m); [reflexivity|].
  destruct (msg_channel_type m); try reflexivity.
  destruct (negb _); [reflexivity|].
  destruct (looks_like_command _); [reflexivity|].
  destruct (connection_or_join _ _ _ _ _) as [[c|] vs]; rewrite ?H; reflexivity.
Qed.

(** C8. The claim fails in the [Basic] variant: its [speak] has no test
    for the empty string, and its [say] command passes [cleanText(text)]
    without one.  A [say] whose text is only a custom emoji is sanitized
    to the empty string, which is pushed, shifted and handed to the
    synthesizer by a consumer loop started for it; on the same input the
    [Enhanced] variant leaves the queue state untouched. *)
Theorem C8_basic_say_enqueues_empty_text :
  let vc := mkChannel (lit "42") GuildVoice (lit "7") false in
  let who := mkCaller None (Some vc) in
  let cfg := default_config (lit "1") in
  let text := lit "<:smile:123>" in
  cleanText text = []
  /\ log (spk (onSay Basic cfg text who true winit))
     = [EPush []; EShift []; ESynth []]
  /\ loops (spk (onSay Basic cfg text who true winit)) = [AwaitTts []]
  /\ isSpeaking (spk (onSay Basic cfg text who true winit)) = true
  /\ spk (onSay Enhanced cfg text who true winit) = qinit.
Proof. vm_compute. repeat split; reflexivity. Qed.

(** ** Messages of bots *)

(** C10. In both variants the message handler returns at its first test
    when the author is a bot: whatever the channel, the content and the
    state, nothing is joined, sanitized, pushed or spoken; the voice
    state and the queue state are exactly what they were. *)
Theorem C10_bot_messages_ignored (v : variant) (cfg : config) (m : message)
    (ready : bool) (w : world) :
  author_bot m = true ->
  onMessageCreate v cfg m ready w = w.
Proof. intros H. unfold onMessageCreate. rewrite H. reflexivity. Qed.

Lemma C10_bot_messages_ignored_witness :
  let vc := mkChannel (lit "42") GuildVoice (lit "7") false in
  let cfg := default_config (lit "1") in
  let m := mkMessage true GuildText (lit "1") (lit "hello") (lit "Bot")
             (mkCaller None (Some vc)) in
  onMessageCreate Enhanced cfg m true winit = winit
  /\ log (spk (onMessageCreate Enhanced cfg
                 (mkMessage false GuildText (lit "1") (lit "hello") (lit "Ann")
                    (mkCaller None (Some vc))) true winit))
     = [EPush (lit "Ann said: hello"); EShift (lit "Ann said: hello");
        ESynth (lit "Ann said: hello")].
Proof.
  intros vc cfg m. split.
  - apply (@C10_bot_messages_ignored Enhanced cfg m true winit). reflexivity.
  - vm_compute. reflexivity.
Defined.

(** ** Sanitizer: matching and replacing *)

Lemma re_url_eq :
  re_url = [One (Chr 104); One (Chr 116); One (Chr 116); One (Chr 112);
            Opt (Chr 115); One (Chr 58); One (Chr 47); One (Chr 47);
            Plus (Cls not_space)].
Proof. reflexivity. Qed.

Lemma rmatch_one a r c t :
  rmatch (One a :: r) (c :: t)
  = if accepts a c then option_map S (rmatch r t) else None.
Proof. reflexivity. Qed.

Lemma rmatch_opt a r c t :
  rmatch (Opt a :: r) (c :: t)
  = if accepts a c
    then match rmatch r t with
         | Some n => Some (S n)
         | None => rmatch r (c :: t)
         end
    else rmatch r (c :: t).
Proof. reflexivity. Qed.

Lemma rmatch_plus a r c t :
  rmatch (Plus a :: r) (c :: t)
  = if accepts a c
    then match rmatch (Plus a :: r) t with
         | Some n => Some (S n)
         | None => option_map S (rmatch r t)
         end
    else None.
Proof. reflexivity. Qed.

Lemma replace_from_skip r rep : forall s k,
  replace_from r rep k s = replace_from r rep 0 (skipn k s).
Proof.
  induction s as [|c t IH]; intros k.
  - destruct k; reflexivity.
  - destruct k as [|k]; [reflexivity|]. simpl. apply IH.
Qed.

Lemma replace_g_cons r rep c t :
  replace_g r rep (c :: t)
  = match rmatch r (c :: t) with
    | Some (S k) => rep ++ replace_g r rep (skipn k t)
    | _ => c :: replace_g r rep t
    end.
Proof.
  unfold replace_g. simpl replace_from at 1.
  destruct (rmatch r (c :: t)) as [[|k]|]; try reflexivity.
  rewrite replace_from_skip. reflexivity.
Qed.

(** Induction along the scan of [replace_g]. *)
Lemma replace_g_ind r rep (P : jsstring -> jsstring -> Prop) :
  (forall s, rmatch r s <> Some 0) ->
  P [] [] ->
  (forall c t k, rmatch r (c :: t) = Some (S k) ->
     P (skipn k t) (replace_g r rep (skipn k t)) ->
     P (c :: t) (rep ++ replace_g r rep (skipn k t))) ->
  (forall c t, rmatch r (c :: t) = None ->
     P t (replace_g r rep t) -> P (c :: t) (c :: replace_g r rep t)) ->
  forall s, P s (replace_g r rep s).
Proof.
  intros Hpos Hnil Hhit Hmiss s.
  assert (H : forall n s, length s <= n -> P s (replace_g r rep s)).
  { induction n as [|n IH]; intros [|c t] Hl; simpl in Hl; try exact Hnil.
    - lia.
    - rewrite replace_g_cons.
      destruct (rmatch r (c :: t)) as [[|k]|] eqn:E.
      + exfalso. exact (Hpos _ E).
      + apply Hhit; [exact E|]. apply IH. rewrite length_skipn. lia.
      + apply Hmiss; [exact E|]. apply IH. lia. }
  apply (H (length s)). lia.
Qed.

Lemma has_match_cons r c t :
  has_match r (c :: t) = is_some (rmatch r (c :: t)) || has_match r t.
Proof. reflexivity. Qed.

Lemma has_match_skipn r : forall k s,
  has_match r s = false -> has_match r (skipn k s) = false.
Proof.
  induction k as [|k IH]; intros s H; [exact H|].
  destruct s as [|c t]; [exact H|]. simpl skipn. apply IH.
  rewrite has_match_cons in H. apply orb_false_iff in H. tauto.
Qed.

(** Where the pattern matches nowhere, replacing changes nothing. *)
Lemma replace_g_id r rep : forall s,
  has_match r s = false -> replace_g r rep s = s.
Proof.
  induction s as [|c t IH]; intros H; [reflexivity|].
  rewrite has_match_cons in H. apply orb_false_iff in H. destruct H as [H1 H2].
  rewrite replace_g_cons. destruct (rmatch r (c :: t)); [discriminate|].
  rewrite IH by exact H2. reflexivity.
Qed.

Lemma rmatch_one_pos a r s : rmatch (One a :: r) s <> Some 0.
Proof.
  destruct s as [|c t]; simpl; [discriminate|].
  destruct (accepts a c); [|discriminate].
  destruct (rmatch r t); simpl; discriminate.
Qed.

Lemma rmatch_plus_pos a r s : rmatch (Plus a :: r) s <> Some 0.
Proof.
  destruct s as [|c t]; [discriminate|]. rewrite rmatch_plus.
  destruct (accepts a c); [|discriminate].
  destruct (rmatch (Plus a :: r) t); [discriminate|].
  destruct (rmatch r t); simpl; discriminate.
Qed.

Lemma is_some_opt_rest a r s :
  is_some (rmatch r s) = true -> is_some (rmatch (Opt a :: r) s) = true.
Proof.
  intros H. destruct s as [|c t]; [exact H|]. rewrite rmatch_opt.
  destruct (accepts a c); [|exact H].
  destruct (rmatch r t); [reflexivity | exact H].
Qed.

Lemma is_some_plus_last a s :
  is_some (rmatch [Plus a] s)
  = match s with c :: _ => accepts a c | [] => false end.
Proof.
  destruct s as [|c t]; [reflexivity|]. rewrite rmatch_plus.
  destruct (accepts a c); [|reflexivity].
  destruct (rmatch [Plus a] t); reflexivity.
Qed.

(** What follows a match, through the items of a pattern. *)
Lemma ends_one (Q : jsstring -> Prop) a r :
  (forall s n, rmatch r s = Some n -> Q (skipn n s)) ->
  forall s n, rmatch (One a :: r) s = Some n -> Q (skipn n s).
Proof.
  intros H [|c t] n; simpl; [discriminate|].
  destruct (accepts a c); [|discriminate].
  destruct (rmatch r t) as [m|] eqn:E; simpl; [|discriminate].
  intros Hn. injection Hn as <-. simpl. apply H. exact E.
Qed.

Lemma ends_opt (Q : jsstring -> Prop) a r :
  (forall s n, rmatch r s = Some n -> Q (skipn n s)) ->
  forall s n, rmatch (Opt a :: r) s = Some n -> Q (skipn n s).
Proof.
  intros H [|c t] n; [apply H|]. rewrite rmatch_opt.
  destruct (accepts a c); [|apply H].
  destruct (rmatch r t) as [m|] eqn:E; [|apply H].
  intros Hn. injection Hn as <-. simpl. apply H. exact E.
Qed.

Lemma ends_plus_last a : forall s n,
  rmatch [Plus a] s = Some n ->
  match skipn n s with [] => True | c :: _ => accepts a c = false end.
Proof.
  induction s as [|c t IH]; intros n; [discriminate|]. rewrite rmatch_plus.
  destruct (accepts a c) eqn:Ec; [|discriminate].
  destruct (rmatch [Plus a] t) as [m|] eqn:E.
  - intros Hn. injection Hn as <-. simpl. apply IH. reflexivity.
  - simpl. intros Hn. injection Hn as <-. simpl.
    destruct t as [|d t']; [exact I|].
    rewrite rmatch_plus in E. destruct (accepts a d); [|reflexivity].
    destruct (rmatch [Plus a] t'); discriminate.
Qed.

(** A match of a pattern on a string is a match on any extension. *)
Lemma rmatch_app_some : forall r s z,
  is_some (rmatch r s) = true -> is_some (rmatch r (s ++ z)) = true.
Proof.
  induction r as [|[a|a|a] r IH]; intros s z H; [reflexivity| | |].
  - destruct s as [|c t]; [discriminate|]. simpl app.
    rewrite rmatch_one in *. destruct (accepts a c); [|discriminate].
    specialize (IH t z). destruct (rmatch r t); [|discriminate].
    destruct (rmatch r (t ++ z)); [reflexivity|]. apply IH. reflexivity.
  - destruct s as [|c t].
    + apply is_some_opt_rest. apply (IH [] z). exact H.
    + simpl app. rewrite rmatch_opt in *. destruct (accepts a c).
      * pose proof (IH t z) as IHt. pose proof (IH (c :: t) z) as IHc.
        destruct (rmatch r t).
        -- destruct (rmatch r (t ++ z)); [reflexivity|]. discriminate IHt.
           reflexivity.
        -- destruct (rmatch r (t ++ z)); [reflexivity|]. apply IHc. exact H.
      * apply (IH (c :: t) z). exact H.
  - induction s as [|c t IHs]; [discriminate|]. simpl app.
    rewrite rmatch_plus in *. destruct (accepts a c); [|discriminate].
    destruct (rmatch (Plus a :: r) t) as [m|].
    + specialize (IHs eq_refl).
      destruct (rmatch (Plus a :: r) (t ++ z)); [reflexivity|discriminate].
    + destruct (rmatch (Plus a :: r) (t ++ z)); [reflexivity|].
      pose proof (IH t z) as IHt.
      destruct (rmatch r t); [|discriminate].
      destruct (rmatch r (t ++ z)); [reflexivity|]. apply IHt. reflexivity.
Qed.

Lemma has_match_app r : forall s z,
  has_match r s = true -> has_match r (s ++ z) = true.
Proof.
  induction s as [|c t IH]; intros z H.
  - simpl in H. rewrite orb_false_r in H.
    destruct z as [|d z']; simpl; rewrite ?orb_false_r.
    + exact H.
    + apply (rmatch_app_some r [] (d :: z')) in H. simpl in H.
      rewrite H. reflexivity.
  - simpl app. rewrite has_match_cons in *. apply orb_true_iff in H.
    apply orb_true_iff. destruct H as [H|H].
    + left. apply (rmatch_app_some r (c :: t) z). exact H.
    + right. apply IH. exact H.
Qed.

(** *** Replacing creates no match of the URL pattern *)

Section Transfer.
Variables (r : regex) (x : N) (rep' : jsstring).
Hypothesis Hpos : forall s, rmatch r s <> Some 0.
Hypothesis Hhead : forall c t k,
  rmatch r (c :: t) = Some (S k) -> is_space x = true \/ is_space c = false.

Lemma transfers_last : transfers r (x :: rep') [Plus (Cls not_space)].
Proof.
  intros t. rewrite !is_some_plus_last.
  destruct t as [|c t']; [intros H; exact H|]. rewrite replace_g_cons.
  destruct (rmatch r (c :: t')) as [[|k]|] eqn:E; simpl; auto.
  unfold not_space. destruct (Hhead _ _ E) as [H|H]; rewrite H; simpl; auto; discriminate.
Qed.

Lemma transfers_one a r0 :
  accepts a x = false -> transfers r (x :: rep') r0 ->
  transfers r (x :: rep') (One a :: r0).
Proof.
  intros Ha IH [|c t']; [intros H; exact H|]. rewrite replace_g_cons.
  destruct (rmatch r (c :: t')) as [[|k]|] eqn:E.
  - exfalso. exact (Hpos _ E).
  - simpl app. rewrite rmatch_one, Ha. discriminate.
  - rewrite !rmatch_one. destruct (accepts a c); [|discriminate].
    specialize (IH t'). destruct (rmatch r0 (replace_g r (x :: rep') t'));
      [|discriminate].
    intros _. destruct (rmatch r0 t'); [reflexivity|]. apply IH. reflexivity.
Qed.

Lemma transfers_opt a r0 :
  accepts a x = false -> transfers r (x :: rep') r0 ->
  transfers r (x :: rep') (Opt a :: r0).
Proof.
  intros Ha IH [|c t'].
  - intros H. exact H.
  - pose proof (IH (c :: t')) as IHc. pose proof (IH t') as IHt.
    rewrite replace_g_cons in *.
    destruct (rmatch r (c :: t')) as [[|k]|] eqn:E.
    + exfalso. exact (Hpos _ E).
    + simpl app in *. rewrite rmatch_opt, Ha. intros H.
      apply is_some_opt_rest. apply IHc. exact H.
    + rewrite !rmatch_opt. destruct (accepts a c); [|exact IHc].
      destruct (rmatch r0 (replace_g r (x :: rep') t')).
      * intros _. destruct (rmatch r0 t'); [reflexivity|].
        discriminate IHt. reflexivity.
      * intros H. destruct (rmatch r0 t'); [reflexivity|]. apply IHc. exact H.
Qed.

(** Replacing by a text that starts with no unit of the URL pattern's
    fixed part cannot complete a URL. *)
Lemma transfers_url :
  negb (existsb (N.eqb x) [104; 116; 112; 115; 58; 47])%N = true ->
  transfers r (x :: rep') re_url.
Proof.
  intros Hx. rewrite re_url_eq.
  assert (H : forall c, In c [104; 116; 112; 115; 58; 47]%N ->
                        accepts (Chr c) x = false).
  { intros c Hc. simpl. apply negb_true_iff in Hx.
    destruct (N.eqb x c) eqn:E; [|reflexivity].
    exfalso. assert (Hex : existsb (N.eqb x) [104; 116; 112; 115; 58; 47]%N = true).
    { apply existsb_exists. exists c. auto. }
    congruence. }
  repeat first [ apply transfers_one; [apply H; simpl; tauto|]
               | apply transfers_opt; [apply H; simpl; tauto|] ].
  apply transfers_last.
Qed.

(** So a string without URL stays without URL, provided no match of [r]
    is replaced by a text containing the start of one. *)
Lemma replace_g_keeps_no_url :
  negb (existsb (N.eqb x) [104; 116; 112; 115; 58; 47])%N = true ->
  (forall R, has_match re_url R = false ->
             has_match re_url ((x :: rep') ++ R) = false) ->
  forall s, has_match re_url s = false ->
            has_match re_url (replace_g r (x :: rep') s) = false.
Proof.
  intros Hx Hrep s. pose proof (transfers_url Hx) as HT.
  apply (replace_g_ind r (x :: rep')
           (fun s out => has_match re_url s = false ->
                         has_match re_url out = false)); auto.
  - intros c t k E IH H. apply Hrep. apply IH.
    rewrite has_match_cons in H. apply orb_false_iff in H.
    apply has_match_skipn. tauto.
  - intros c t E IH H. rewrite has_match_cons in *.
    apply orb_false_iff in H. destruct H as [H1 H2].
    apply orb_false_iff. split; [|apply IH; exact H2].
    destruct (is_some (rmatch re_url (c :: replace_g r (x :: rep') t))) eqn:F;
      [|reflexivity].
    pose proof (HT (c :: t)) as HT'. rewrite replace_g_cons, E in HT'.
    rewrite (HT' F) in H1. discriminate.
Qed.
End Transfer.

Lemma re_url_pos s : rmatch re_url s <> Some 0.
Proof. rewrite re_url_eq. apply rmatch_one_pos. Qed.

Lemma re_ws_pos s : rmatch re_ws s <> Some 0.
Proof. apply rmatch_plus_pos. Qed.

Lemma re_url_head c t : (c =? 104)%N = false -> rmatch re_url (c :: t) = None.
Proof. intros H. rewrite re_url_eq, rmatch_one. simpl. rewrite H. reflexivity. Qed.

Lemma re_url_hit_head c t k :
  rmatch re_url (c :: t) = Some (S k) ->
  is_space 97 = true \/ is_space c = false.
Proof.
  intros H. right. destruct (c =? 104)%N eqn:E.
  - apply N.eqb_eq in E. subst c. reflexivity.
  - rewrite (@re_url_head c t E) in H. discriminate.
Qed.

Lemma no_url_after_a_link R :
  has_match re_url R = false -> has_match re_url (a_link ++ R) = false.
Proof.
  intros H. unfold a_link. simpl app.
  rewrite !has_match_cons, !re_url_head by reflexivity. exact H.
Qed.

Lemma no_url_after_space R :
  has_match re_url R = false -> has_match re_url (one_space ++ R) = false.
Proof.
  intros H. unfold one_space. simpl app.
  rewrite !has_match_cons, !re_url_head by reflexivity. exact H.
Qed.

(** After the URL replacement no URL is left. *)
Lemma replace_url_no_url s :
  has_match re_url (replace_g re_url a_link s) = false.
Proof.
  pose proof (@transfers_url re_url 97%N (tl a_link) re_url_pos re_url_hit_head
                eq_refl) as HT.
  apply (replace_g_ind re_url a_link
           (fun _ out => has_match re_url out = false)).
  - apply re_url_pos.
  - reflexivity.
  - intros c t k _ IH. apply no_url_after_a_link. exact IH.
  - intros c t E IH. rewrite has_match_cons, IH, orb_false_r.
    destruct (is_some (rmatch re_url (c :: replace_g re_url a_link t))) eqn:F;
      [|reflexivity].
    pose proof (HT (c :: t)) as HT'. unfold a_link in HT'. simpl tl in HT'.
    change (97%N :: [32; 108; 105; 110; 107]%N) with a_link in HT'.
    rewrite replace_g_cons, E in HT'.
    discriminate (HT' F).
Qed.

Lemma collapse_keeps_no_url s :
  has_match re_url s = false ->
  has_match re_url (replace_g re_ws one_space s) = false.
Proof.
  apply (@replace_g_keeps_no_url re_ws 32%N [] re_ws_pos).
  - intros c t k _. left. reflexivity.
  - reflexivity.
  - apply no_url_after_space.
Qed.

(** *** Trimming *)

Lemma trim_start_suffix : forall s, exists k, trim_start s = skipn k s.
Proof.
  induction s as [|c t [k IH]]; [exists 0; reflexivity|]. simpl.
  destruct (is_space c); [exists (S k); exact IH | exists 0; reflexivity].
Qed.

Lemma trim_end_prefix : forall s, exists z, s = trim_end s ++ z.
Proof.
  induction s as [|c t [z IH]]; [exists []; reflexivity|]. simpl.
  destruct (trim_end t) as [|d t'] eqn:E.
  - destruct (is_space c); [exists (c :: t); reflexivity|].
    exists z. simpl in *. congruence.
  - exists z. simpl in *. congruence.
Qed.

Lemma trim_keeps_no_match r s :
  has_match r s = false -> has_match r (trim s) = false.
Proof.
  intros H. unfold trim. destruct (trim_start_suffix s) as [k Hk].
  rewrite Hk. pose proof (has_match_skipn r k _ H) as H1.
  destruct (trim_end_prefix (skipn k s)) as [z Hz].
  destruct (has_match r (trim_end (skipn k s))) eqn:F; [|reflexivity].
  apply (has_match_app r _ z) in F. rewrite <- Hz in F. congruence.
Qed.

(** *** White space *)

Lemma re_ws_some c t : is_some (rmatch re_ws (c :: t)) = is_space c.
Proof. unfold re_ws. rewrite is_some_plus_last. reflexivity. Qed.

Lemma re_ws_miss c t : is_space c = false -> rmatch re_ws (c :: t) = None.
Proof.
  intros H. pose proof (re_ws_some c t) as E. rewrite H in E.
  destruct (rmatch re_ws (c :: t)); [discriminate | reflexivity].
Qed.

Lemma collapse_starts_clean s :
  starts_clean s = true ->
  starts_clean (replace_g re_ws one_space s) = true.
Proof.
  destruct s as [|c t]; [reflexivity|]. simpl. intros H.
  rewrite replace_g_cons, re_ws_miss; [exact H|].
  unfold not_space in H. apply negb_true_iff. exact H.
Qed.

Lemma wspaced_space R :
  starts_clean R = true -> wspaced R = true -> wspaced (one_space ++ R) = true.
Proof.
  intros H1 H2. unfold one_space. simpl. rewrite H2.
  destruct R; [reflexivity|]. simpl in H1. rewrite H1. reflexivity.
Qed.

(** After the collapse every white-space unit is one U+0020 that is
    followed by a unit that is not white space, or ends the string. *)
Lemma collapse_wspaced s : wspaced (replace_g re_ws one_space s) = true.
Proof.
  apply (replace_g_ind re_ws one_space (fun _ out => wspaced out = true)).
  - apply re_ws_pos.
  - reflexivity.
  - intros c t k E IH. apply wspaced_space; [|exact IH].
    apply collapse_starts_clean.
    pose proof (@ends_plus_last (Cls is_space) (c :: t) (S k) E) as He.
    simpl in He. unfold starts_clean, not_space.
    destruct (skipn k t); [reflexivity|]. rewrite He. reflexivity.
  - intros c t E IH. simpl.
    destruct (is_space c) eqn:Ec; [|exact IH].
    pose proof (re_ws_some c t) as F. rewrite E, Ec in F. discriminate.
Qed.

Lemma wspaced_tail c t : wspaced (c :: t) = true -> wspaced t = true.
Proof.
  simpl. destruct (is_space c); [|tauto].
  intros H. apply andb_true_iff in H. tauto.
Qed.

Lemma trim_start_wspaced : forall s,
  wspaced s = true ->
  wspaced (trim_start s) = true /\ starts_clean (trim_start s) = true.
Proof.
  induction s as [|c t IH]; intros H; [split; reflexivity|]. simpl trim_start.
  destruct (is_space c) eqn:E.
  - apply IH. apply (wspaced_tail _ _ H).
  - split; [exact H|]. simpl. unfold not_space. rewrite E. reflexivity.
Qed.

Lemma trim_end_head c t :
  is_space c = false -> exists t', trim_end (c :: t) = c :: t'.
Proof.
  intros H. simpl. destruct (trim_end t) as [|d t'].
  - rewrite H. exists []. reflexivity.
  - exists (d :: t'). reflexivity.
Qed.

Lemma trim_end_starts_clean s :
  starts_clean s = true -> starts_clean (trim_end s) = true.
Proof.
  destruct s as [|c t]; [reflexivity|]. intros H. simpl in H.
  unfold not_space in H. apply negb_true_iff in H.
  destruct (@trim_end_head c t H) as [t' ->]. simpl. unfold not_space.
  rewrite H. reflexivity.
Qed.

Lemma trim_end_spaced : forall s,
  wspaced s = true -> spaced (trim_end s) = true.
Proof.
  induction s as [|c t IH]; intros H; [reflexivity|].
  pose proof (IH (wspaced_tail _ _ H)) as IHt. simpl trim_end.
  destruct (trim_end t) as [|d t'] eqn:E.
  - destruct (is_space c) eqn:Ec; [reflexivity|]. simpl. rewrite Ec. reflexivity.
  - simpl. simpl in IHt. destruct (is_space c) eqn:Ec; [|exact IHt].
    simpl in H. rewrite Ec in H.
    apply andb_true_iff in H. destruct H as [H _].
    apply andb_true_iff in H. destruct H as [H32 Hn].
    rewrite H32, IHt. simpl. rewrite andb_true_r.
    destruct t as [|e t'']; [discriminate|].
    unfold not_space in Hn. apply negb_true_iff in Hn.
    destruct (@trim_end_head e t'' Hn) as [u Hu]. rewrite Hu in E.
    injection E as <- _. unfold not_space. rewrite Hn. reflexivity.
Qed.

(** On such a string the collapse and the trim change nothing. *)
Lemma collapse_spaced : forall s,
  spaced s = true -> replace_g re_ws one_space s = s.
Proof.
  induction s as [|c t IH]; intros H; [reflexivity|].
  rewrite replace_g_cons. simpl in H. destruct (is_space c) eqn:Ec.
  - apply andb_true_iff in H. destruct H as [H Ht].
    apply andb_true_iff in H. destruct H as [H32 Hn].
    apply N.eqb_eq in H32. subst c.
    destruct t as [|d t']; [discriminate|].
    unfold not_space in Hn. apply negb_true_iff in Hn.
    unfold re_ws at 1. rewrite rmatch_plus. simpl accepts. rewrite Ec.
    fold re_ws. rewrite (@re_ws_miss d t' Hn). simpl.
    rewrite IH by exact Ht. reflexivity.
  - rewrite (@re_ws_miss c t Ec). rewrite IH by exact H. reflexivity.
Qed.

Lemma trim_end_id : forall s, spaced s = true -> trim_end s = s.
Proof.
  induction s as [|c t IH]; intros H; [reflexivity|]. simpl in *.
  destruct (is_space c) eqn:Ec.
  - apply andb_true_iff in H. destruct H as [H Ht].
    apply andb_true_iff in H. destruct H as [_ Hn].
    rewrite IH by exact Ht. destruct t; [discriminate | reflexivity].
  - rewrite IH by exact H. destruct t; reflexivity.
Qed.

Lemma trim_start_id s : starts_clean s = true -> trim_start s = s.
Proof.
  destruct s as [|c t]; [reflexivity|]. simpl. unfold not_space.
  intros H. apply negb_true_iff in H. rewrite H. reflexivity.
Qed.

(** *** The output of [cleanText] *)

Lemma cleanText_no_url s : has_match re_url (cleanText s) = false.
Proof.
  unfold cleanText. destruct s as [|c t]; [reflexivity|].
  apply trim_keeps_no_match. apply collapse_keeps_no_url.
  apply replace_url_no_url.
Qed.

Lemma cleanText_spaced s :
  spaced (cleanText s) = true /\ starts_clean (cleanText s) = true.
Proof.
  unfold cleanText. destruct s as [|c t]; [split; reflexivity|].
  unfold trim.
  match goal with
  | |- context [trim_start ?u] =>
      destruct (@trim_start_wspaced u (collapse_wspaced _)) as [Hw Hc]
  end.
  split; [apply trim_end_spaced; exact Hw|].
  apply trim_end_starts_clean. exact Hc.
Qed.

(** C9, the claim as stated, fails: removing a custom emoji can join the
    two halves of a mention, which only a second pass replaces. *)
Lemma C9_not_idempotent :
  cleanText (lit "<@<:a:1>123>") = lit "<@123>"
  /\ cleanText (cleanText (lit "<@<:a:1>123>")) = lit "someone"
  /\ cleanText (cleanText (lit "<@<:a:1>123>")) <> cleanText (lit "<@<:a:1>123>").
Proof.
  split; [vm_compute; reflexivity|]. split; [vm_compute; reflexivity|].
  vm_compute. discriminate.
Qed.

(** C9, amended.  [cleanText] applies, in order, the mention, channel and
    custom-emoji replacements, the URL replacement, the white-space
    collapse and the trim.  Whenever its output contains no mention,
    channel-reference or custom-emoji token, sanitizing the output again
    returns it unchanged. *)
Theorem C9_idempotent_on_token_free_output (s : jsstring) :
  no_token (cleanText s) = true ->
  cleanText (cleanText s) = cleanText s.
Proof.
  intros H. unfold no_token in H.
  apply andb_true_iff in H. destruct H as [H He].
  apply andb_true_iff in H. destruct H as [Hm Hc].
  apply negb_true_iff in Hm, Hc, He.
  pose proof (cleanText_no_url s) as Hu.
  destruct (cleanText_spaced s) as [Hs Hh].
  set (y := cleanText s) in *.
  unfold cleanText at 1. destruct y as [|c t] eqn:Ey; [reflexivity|].
  rewrite <- Ey in *.
  rewrite (replace_g_id re_mention someone y Hm).
  rewrite (replace_g_id re_channel a_channel y Hc).
  rewrite (replace_g_id re_emoji [] y He).
  rewrite (replace_g_id re_url a_link y Hu).
  rewrite (collapse_spaced y Hs).
  unfold trim. rewrite (trim_start_id y Hh). apply trim_end_id. exact Hs.
Qed.

Lemma C9_idempotent_on_token_free_output_witness :
  let s := lit "  Hello <@!123>  see <#42> <a:wave:99> https://x.com/a?b=1 ok " in
  cleanText s = lit "Hello someone see a channel a link ok"
  /\ cleanText (cleanText s) = cleanText s.
Proof.
  intros s. split; [vm_compute; reflexivity|].
  apply (@C9_idempotent_on_token_free_output s). vm_compute. reflexivity.
Defined.

(** ** Runs of the queue on samples *)

Lemma C1_single_consumer_witness :
  let cfg := default_config (lit "1") in
  let st := run Enhanced cfg [CallSpeak (lit "A")] qinit in
  let st' := step Enhanced cfg st (CallSpeak (lit "B")) in
  isSpeaking st = true
  /\ loops st' = loops st
  /\ queue st' = [lit "B"]
  /\ synthesized (log st') = [lit "A"].
Proof.
  intros cfg st st'.
  destruct (@C1_single_consumer Enhanced cfg [CallSpeak (lit "A")])
    as (_ & _ & _ & H).
  destruct (H (lit "B") eq_refl) as (H1 & _ & H3 & _ & H5 & _).
  split; [reflexivity|]. split; [exact H1|]. split; [exact H3 | exact H5].
Defined.



(** * Further properties of the sanitizer *)

Lemma has_match_at r : forall pre x,
  has_match r (pre ++ x) = false -> rmatch r x = None.
Proof.
  induction pre as [|c pre IH]; intros x H.
  - simpl in H. destruct x as [|d x']; simpl in H.
    + rewrite orb_false_r in H. destruct (rmatch r []); [discriminate|reflexivity].
    + apply orb_false_iff in H. destruct H as [H _].
      destruct (rmatch r (d :: x')); [discriminate|reflexivity].
  - simpl app in H. rewrite has_match_cons in H.
    apply orb_false_iff in H. apply IH. tauto.
Qed.

Lemma re_url_http c post :
  is_space c = false ->
  is_some (rmatch re_url (lit "http://" ++ c :: post)) = true.
Proof.
  intros H. rewrite re_url_eq.
  assert (P : is_some (rmatch [Plus (Cls not_space)] (c :: post)) = true).
  { rewrite is_some_plus_last. simpl. unfold not_space. rewrite H. reflexivity. }
  remember (c :: post) as x eqn:Ex.
  destruct (rmatch [Plus (Cls not_space)] x) as [n|] eqn:E; [|discriminate].
  simpl in E |- *. rewrite E. reflexivity.
Qed.

Lemma re_url_https c post :
  is_space c = false ->
  is_some (rmatch re_url (lit "https://" ++ c :: post)) = true.
Proof.
  intros H. rewrite re_url_eq.
  assert (P : is_some (rmatch [Plus (Cls not_space)] (c :: post)) = true).
  { rewrite is_some_plus_last. simpl. unfold not_space. rewrite H. reflexivity. }
  remember (c :: post) as x eqn:Ex.
  destruct (rmatch [Plus (Cls not_space)] x) as [n|] eqn:E; [|discriminate].
  simpl in E |- *. rewrite E. reflexivity.
Qed.

(** X1. The output of [cleanText] contains no URL, for every input: the
    URL pattern matches at no position of it, that is, nowhere in it do
    [http://] or [https://] stand in front of a unit that is not white
    space. *)
Theorem X1_cleanText_output_has_no_url (s : jsstring) :
  has_match re_url (cleanText s) = false
  /\ (forall pre c post, is_space c = false ->
        cleanText s <> pre ++ lit "http://" ++ c :: post)
  /\ (forall pre c post, is_space c = false ->
        cleanText s <> pre ++ lit "https://" ++ c :: post).
Proof.
  pose proof (cleanText_no_url s) as H. split; [exact H|].
  split; intros pre c post Hc E; rewrite E in H; apply has_match_at in H.
  - pose proof (@re_url_http c post Hc) as M. rewrite H in M. discriminate.
  - pose proof (@re_url_https c post Hc) as M. rewrite H in M. discriminate.
Qed.

Lemma spaced_tail c t : spaced (c :: t) = true -> spaced t = true.
Proof.
  simpl. destruct (is_space c); [|tauto].
  intros H. apply andb_true_iff in H. tauto.
Qed.

Lemma spaced_nth : forall l i c,
  spaced l = true -> nth_error l i = Some c -> is_space c = true ->
  c = 32%N /\ exists d, nth_error l (S i) = Some d /\ is_space d = false.
Proof.
  induction l as [|x l IH]; intros i c Hs Hn Hc; [destruct i; discriminate|].
  destruct i as [|i].
  - simpl in Hn. injection Hn as ->. simpl in Hs. rewrite Hc in Hs.
    apply andb_true_iff in Hs. destruct Hs as [Hs _].
    apply andb_true_iff in Hs. destruct Hs as [H32 Hd].
    split; [apply N.eqb_eq; exact H32|].
    destruct l as [|d l']; [discriminate|]. exists d. split; [reflexivity|].
    unfold not_space in Hd. apply negb_true_iff. exact Hd.
  - apply (IH i c (spaced_tail _ _ Hs) Hn Hc).
Qed.

(** X2. In the output of [cleanText] every white-space unit is a single
    U+0020 that stands between two units that are not white space: it
    is never the first unit, and the unit after it exists and is not
    white space (so the output neither starts nor ends with white space
    and has no run of two). *)
Theorem X2_cleanText_output_single_spaced (s : jsstring) (i : nat) (c : N) :
  nth_error (cleanText s) i = Some c ->
  is_space c = true ->
  c = 32%N /\ i <> 0
  /\ exists d, nth_error (cleanText s) (S i) = Some d /\ is_space d = false.
Proof.
  intros Hn Hc. destruct (cleanText_spaced s) as [Hs Hh].
  destruct (spaced_nth _ _ Hs Hn Hc) as [H32 Hd].
  split; [exact H32|]. split; [|exact Hd].
  intros ->. destruct (cleanText s) as [|x l]; [discriminate|].
  simpl in Hn, Hh. injection Hn as ->. unfold not_space in Hh.
  rewrite Hc in Hh. discriminate.
Qed.

Lemma X2_cleanText_output_single_spaced_witness :
  cleanText ([32; 9; 97; 32; 160; 10; 98; 32]%N) = lit "a b"
  /\ exists d, nth_error (cleanText ([32; 9; 97; 32; 160; 10; 98; 32]%N)) 2 = Some d
               /\ is_space d = false.
Proof.
  split; [vm_compute; reflexivity|].
  destruct (@X2_cleanText_output_single_spaced [32; 9; 97; 32; 160; 10; 98; 32]%N 1 32%N)
    as (_ & _ & H); [vm_compute; reflexivity | reflexivity | exact H].
Defined.

(** X3. Text that is already clean is left as it is: when a string
    contains no mention, channel or custom-emoji token and no URL, and
    its white space is single U+0020 units between other units, then
    [cleanText] returns it unchanged. *)
Theorem X3_cleanText_keeps_clean_text (s : jsstring) :
  no_token s = true ->
  has_match re_url s = false ->
  spaced s = true ->
  starts_clean s = true ->
  cleanText s = s.
Proof.
  intros H Hu Hs Hh. unfold no_token in H.
  apply andb_true_iff in H. destruct H as [H He].
  apply andb_true_iff in H. destruct H as [Hm Hc].
  apply negb_true_iff in Hm, Hc, He.
  unfold cleanText. destruct s as [|c t] eqn:Es; [reflexivity|].
  rewrite <- Es in *.
  rewrite (replace_g_id re_mention someone s Hm).
  rewrite (replace_g_id re_channel a_channel s Hc).
  rewrite (replace_g_id re_emoji [] s He).
  rewrite (replace_g_id re_url a_link s Hu).
  rewrite (collapse_spaced s Hs).
  unfold trim. rewrite (trim_start_id s Hh). apply trim_end_id. exact Hs.
Qed.

Lemma X3_cleanText_keeps_clean_text_witness :
  cleanText (lit "Ann said: hello, see you at 10:30 <3")
  = lit "Ann said: hello, see you at 10:30 <3".
Proof.
  apply (@X3_cleanText_keeps_clean_text
           (lit "Ann said: hello, see you at 10:30 <3"));
    vm_compute; reflexivity.
Defined.

(** *** Blank text *)

Lemma space_not c x : is_space c = true -> is_space x = false -> (c =? x)%N = false.
Proof.
  intros Hc Hx. destruct (c =? x)%N eqn:E; [|reflexivity].
  apply N.eqb_eq in E. subst. congruence.
Qed.

(** A pattern whose first item is a unit that is not white space matches
    nowhere in a blank string. *)
Lemma blank_no_match x r : forall s,
  is_space x = false -> forallb is_space s = true ->
  has_match (One (Chr x) :: r) s = false.
Proof.
  intros s Hx. induction s as [|c t IH]; intros H; [reflexivity|].
  simpl in H. apply andb_true_iff in H. destruct H as [Hc Ht].
  rewrite has_match_cons, rmatch_one. simpl accepts.
  rewrite (@space_not c x Hc Hx). simpl. apply IH. exact Ht.
Qed.

Lemma re_ws_blank : forall s,
  s <> [] -> forallb is_space s = true -> rmatch re_ws s = Some (length s).
Proof.
  induction s as [|c t IH]; intros Hne H; [congruence|].
  simpl in H. apply andb_true_iff in H. destruct H as [Hc Ht].
  unfold re_ws in *. rewrite rmatch_plus. simpl accepts. rewrite Hc.
  destruct t as [|d t']; [reflexivity|].
  rewrite IH by (congruence || exact Ht). reflexivity.
Qed.

(** X4. A text made of white space only is sanitized to the empty
    string. *)
Theorem X4_cleanText_blank_is_empty (s : jsstring) :
  forallb is_space s = true -> cleanText s = [].
Proof.
  intros H. unfold cleanText. destruct s as [|c t] eqn:Es; [reflexivity|].
  rewrite <- Es in *.
  rewrite (replace_g_id re_mention someone s)
    by (apply blank_no_match; [reflexivity | exact H]).
  rewrite (replace_g_id re_channel a_channel s)
    by (apply blank_no_match; [reflexivity | exact H]).
  rewrite (replace_g_id re_emoji [] s)
    by (apply blank_no_match; [reflexivity | exact H]).
  rewrite (replace_g_id re_url a_link s)
    by (rewrite re_url_eq; apply blank_no_match; [reflexivity | exact H]).
  assert (Hm : rmatch re_ws s = Some (length s)).
  { apply re_ws_blank; [congruence | exact H]. }
  rewrite Es in *. rewrite replace_g_cons, Hm. cbn [length].
  rewrite skipn_all. reflexivity.
Qed.

Lemma X4_cleanText_blank_is_empty_witness :
  cleanText [32; 9; 10; 160; 8195; 12288]%N = [].
Proof.
  apply (@X4_cleanText_blank_is_empty [32; 9; 10; 160; 8195; 12288]%N).
  vm_compute. reflexivity.
Defined.

(** * Further properties of the speak queue *)

Lemma pushed_resume_idle : forall l st,
  pushed (log (fold_left resume_idle l st)) = pushed (log st).
Proof.
  induction l as [|ph l IH]; intros st; [reflexivity|]. simpl. rewrite IH.
  destruct ph; try reflexivity. simpl. unfold after_idle, loop_top. simpl.
  destruct (queue st); simpl; log_simpl; reflexivity.
Qed.

(** Only [speak] pushes, and what it pushes is what [prepare] returns. *)
Lemma step_pushed v cfg st i :
  pushed (log (step v cfg st i))
  = pushed (log st)
    ++ match i with
       | CallSpeak text =>
           match prepare v cfg text with Some x => [x] | None => [] end
       | _ => []
       end.
Proof.
  destruct i as [text|k r ok|k ok1 ok2| |k ok]; simpl.
  - destruct (prepare v cfg text) as [x|] eqn:E.
    + apply speak_pushed. exact E.
    + unfold speak. rewrite E, app_nil_r. reflexivity.
  - rewrite app_nil_r. destruct (take_nth k (loops st)) as [[[n|n p|n p] others]|];
      try reflexivity.
    unfold after_tts, play_or_catch, loop_top.
    destruct r as [p|]; [destruct v; [|destruct ok]|]; simpl;
      try destruct (queue st); simpl; log_simpl; reflexivity.
  - rewrite app_nil_r. destruct (take_nth k (loops st)) as [[[n|n p|n p] others]|];
      try reflexivity.
    unfold after_probe, play_or_catch, loop_top.
    destruct (ok1 && ok2); simpl; try destruct (queue st); simpl; log_simpl;
      reflexivity.
  - rewrite app_nil_r. destruct (playing st); [|reflexivity].
    rewrite pushed_resume_idle. simpl. log_simpl. reflexivity.
  - rewrite app_nil_r. destruct (take_nth k (unlinking st)) as [[p others]|];
      [|reflexivity].
    unfold unlink_settles. destruct ok; simpl; log_simpl; reflexivity.
Qed.

Lemma run_pushed_Forall v cfg (P : jsstring -> Prop) :
  (forall text x, prepare v cfg text = Some x -> P x) ->
  forall ins st, Forall P (pushed (log st)) ->
                 Forall P (pushed (log (run v cfg ins st))).
Proof.
  intros HP. unfold run. induction ins as [|i ins IH]; intros st H; [exact H|].
  simpl. apply IH. rewrite step_pushed. apply Forall_app. split; [exact H|].
  destruct i; try constructor.
  destruct (prepare v cfg text) as [x|] eqn:E; constructor; [|constructor].
  apply (HP text x E).
Qed.

Lemma slice0_prefix s m : exists k, slice0 s m = firstn k s.
Proof. unfold slice0. eexists. reflexivity. Qed.

Lemma clip_length s m :
  (0 <= m)%Z -> length (clip m s) <= Z.to_nat m + 2.
Proof.
  intros Hm. destruct (Nat.le_gt_cases (length s) (Z.to_nat m)) as [H|H].
  - rewrite clip_short by assumption. lia.
  - rewrite clip_long by assumption.
    rewrite length_app, length_firstn. simpl. lia.
Qed.

Lemma prepare_clip v cfg text x :
  prepare v cfg text = Some x ->
  exists s, x = clip (max_len v cfg) s
            /\ (v = Enhanced -> s = cleanText text /\ s <> []).
Proof.
  destruct v; simpl.
  - destruct (cleanText text) as [|c t] eqn:E; [discriminate|].
    intros H. injection H as <-. exists (c :: t). split; [reflexivity|].
    intros _. split; [reflexivity | discriminate].
  - intros H. injection H as <-. exists text. split; [reflexivity|].
    discriminate.
Qed.

(** X5. With a maximum that is not negative, every item that was ever
    pushed, so every item in the queue and every item handed to the
    synthesizer, has at most the maximum plus two code units (the two
    are the marker). *)
Theorem X5_items_are_bounded (v : variant) (cfg : config) (ins : list input) :
  (0 <= max_len v cfg)%Z ->
  let st := run v cfg ins qinit in
  let bounded := fun x : jsstring => length x <= Z.to_nat (max_len v cfg) + 2 in
  Forall bounded (pushed (log st))
  /\ Forall bounded (synthesized (log st))
  /\ Forall bounded (queue st).
Proof.
  intros Hm st bounded.
  assert (H : Forall bounded (pushed (log st))).
  { apply run_pushed_Forall; [|constructor].
    intros text x E. destruct (prepare_clip v cfg text E) as (s & -> & _).
    apply clip_length. exact Hm. }
  pose proof (reachable_Inv v cfg ins) as HI. fold st in HI.
  rewrite <- (inv_fifo HI) in H. apply Forall_app in H. destruct H as [H1 H2].
  rewrite (inv_synth HI). rewrite <- (inv_fifo HI).
  split; [apply Forall_app; split; assumption|]. split; assumption.
Qed.

Lemma X5_items_are_bounded_witness :
  let cfg := default_config (lit "1") in
  let st := run Basic cfg [CallSpeak (repeat 120%N 1000); CallSpeak (lit "ok")] qinit in
  Forall (fun x : jsstring => length x <= 402) (queue st)
  /\ map (@length N) (pushed (log st)) = [402; 2].
Proof.
  intros cfg st.
  destruct (@X5_items_are_bounded Basic cfg
              [CallSpeak (repeat 120%N 1000); CallSpeak (lit "ok")])
    as (_ & _ & H); [simpl; lia|].
  split; [exact H | vm_compute; reflexivity].
Defined.

(** *** The items of [src/index.js] *)

(** A match cannot run over a unit that no item of the pattern accepts. *)
Lemma rmatch_stop x z : forall r s,
  rejects r x = true ->
  is_some (rmatch r (s ++ x :: z)) = true -> is_some (rmatch r s) = true.
Proof.
  induction r as [|[a|a|a] r IH]; intros s Hr H; [reflexivity| | |];
    simpl in Hr; apply andb_true_iff in Hr; destruct Hr as [Ha Hr];
    apply negb_true_iff in Ha.
  - destruct s as [|c t]; simpl app in H.
    + rewrite rmatch_one, Ha in H. discriminate.
    + rewrite rmatch_one in *. destruct (accepts a c); [|discriminate].
      pose proof (IH t Hr) as IHt.
      destruct (rmatch r (t ++ x :: z)); [|discriminate].
      destruct (rmatch r t); [reflexivity|]. discriminate IHt. reflexivity.
  - destruct s as [|c t]; simpl app in H.
    + rewrite rmatch_opt, Ha in H. apply is_some_opt_rest.
      apply (IH [] Hr). exact H.
    + pose proof (IH t Hr) as IHt. pose proof (IH (c :: t) Hr) as IHc.
      simpl app in IHc. rewrite rmatch_opt in *.
      destruct (accepts a c); [|apply IHc; exact H].
      destruct (rmatch r t); [reflexivity|].
      destruct (rmatch r (t ++ x :: z)); [discriminate IHt; reflexivity|].
      apply IHc. exact H.
  - induction s as [|c t IHs]; simpl app in H.
    + rewrite rmatch_plus, Ha in H. discriminate.
    + rewrite rmatch_plus in *. destruct (accepts a c); [|discriminate].
      pose proof (IH t Hr) as IHt.
      destruct (rmatch (Plus a :: r) t); [reflexivity|].
      destruct (rmatch (Plus a :: r) (t ++ x :: z)); [discriminate IHs; reflexivity|].
      destruct (rmatch r (t ++ x :: z)); [|discriminate].
      destruct (rmatch r t); [reflexivity|]. discriminate IHt. reflexivity.
Qed.

Lemma no_url_marker s :
  has_match re_url s = false -> has_match re_url (s ++ marker) = false.
Proof.
  induction s as [|c t IH]; intros H; [reflexivity|].
  rewrite has_match_cons in H. apply orb_false_iff in H. destruct H as [H1 H2].
  simpl app. rewrite has_match_cons, (IH H2), orb_false_r.
  destruct (is_some (rmatch re_url (c :: t ++ marker))) eqn:E; [|reflexivity].
  unfold marker in E.
  apply (@rmatch_stop 32%N [8230%N] re_url (c :: t) eq_refl) in E. congruence.
Qed.

Lemma no_url_firstn s k :
  has_match re_url s = false -> has_match re_url (firstn k s) = false.
Proof.
  intros H. destruct (has_match re_url (firstn k s)) eqn:E; [|reflexivity].
  apply (has_match_app re_url _ (skipn k s)) in E.
  rewrite firstn_skipn in E. congruence.
Qed.

Lemma clip_no_url s m :
  has_match re_url s = false -> has_match re_url (clip m s) = false.
Proof.
  intros H. unfold clip. destruct (m <? Z.of_nat (length s))%Z; [|exact H].
  destruct (slice0_prefix s m) as [k ->].
  apply no_url_marker. apply no_url_firstn. exact H.
Qed.

Lemma clip_not_empty s m : s <> [] -> clip m s <> [].
Proof.
  intros H. unfold clip. destruct (m <? Z.of_nat (length s))%Z; [|exact H].
  unfold marker. destruct (slice0 s m); discriminate.
Qed.

(** X6. In [src/index.js], whatever is configured, every item that was
    ever pushed, so every item handed to the synthesizer, is non-empty
    and contains no URL: [speak] sanitizes its whole argument (the
    display name and the prefix included), and clipping creates no
    URL. *)
Theorem X6_enhanced_items_are_clean (cfg : config) (ins : list input) :
  let st := run Enhanced cfg ins qinit in
  let clean := fun x : jsstring => x <> [] /\ has_match re_url x = false in
  Forall clean (pushed (log st)) /\ Forall clean (synthesized (log st)).
Proof.
  intros st clean.
  assert (H : Forall clean (pushed (log st))).
  { apply run_pushed_Forall; [|constructor].
    intros text x E. destruct (prepare_clip Enhanced cfg text E) as (s & -> & Hs).
    destruct (Hs eq_refl) as [-> Hne]. split.
    - apply clip_not_empty. exact Hne.
    - apply clip_no_url. apply cleanText_no_url. }
  split; [exact H|].
  pose proof (reachable_Inv Enhanced cfg ins) as HI. fold st in HI.
  rewrite <- (inv_fifo HI) in H. apply Forall_app in H.
  rewrite (inv_synth HI). tauto.
Qed.

(** X7. With a negative [TTS_MAX_LEN] the length test of [speak] is
    true for every text, and [slice(0, MAX_LEN)] counts from the end: in
    [src/index.js] every text that is not empty after sanitization,
    however short, loses its last [-MAX_LEN] code units and gets the
    marker. *)
Theorem X7_negative_max_len (cfg : config) (text : jsstring) :
  (MAX_LEN cfg < 0)%Z ->
  cleanText text <> [] ->
  prepare Enhanced cfg text
  = Some (firstn (length (cleanText text) - Z.to_nat (- MAX_LEN cfg))
            (cleanText text) ++ marker).
Proof.
  intros Hm Hne. unfold prepare.
  destruct (cleanText text) as [|c t] eqn:E; [congruence|].
  f_equal. unfold clip, slice0.
  assert (Hlt : (MAX_LEN cfg <? Z.of_nat (length (c :: t)))%Z = true)
    by (apply Z.ltb_lt; lia).
  rewrite Hlt. assert (Hneg : (MAX_LEN cfg <? 0)%Z = true) by (apply Z.ltb_lt; lia).
  rewrite Hneg. f_equal. f_equal. lia.
Qed.

Lemma X7_negative_max_len_witness :
  prepare Enhanced (mkConfig (lit "1") None (-3) []) (lit "hello")
  = Some (lit "he" ++ marker).
Proof.
  apply (@X7_negative_max_len (mkConfig (lit "1") None (-3) []) (lit "hello")).
  - reflexivity.
  - vm_compute. discriminate.
Defined.

(** *** The state between two bursts, and the end of each item *)

(** X8. Whenever [isSpeaking] is false, no activation of the loop is
    left, the queue is empty, the player is on no resource of the queue,
    [fs.unlink] has been called on every file the synthesizer returned
    (whether these unlinks have completed is another matter), and every
    item that was ever pushed has been handed to the synthesizer: the
    loop never stops with work left. *)
Theorem X8_idle_means_drained (v : variant) (cfg : config) (ins : list input) :
  let st := run v cfg ins qinit in
  isSpeaking st = false ->
  loops st = [] /\ queue st = [] /\ playing st = None
  /\ released (log st) = returned (log st)
  /\ synthesized (log st) = pushed (log st).
Proof.
  intros st Hs. pose proof (reachable_Inv v cfg ins) as HI. fold st in HI.
  pose proof (inv_good HI) as Hg. pose proof (inv_fifo HI) as Hf.
  pose proof (inv_synth HI) as Hy. pose proof (inv_released HI) as Hr.
  unfold good in Hg.
  destruct (loops st) as [|[n|n p|n p] [|? ?]]; try contradiction;
    try (destruct Hg as (Hc & _); congruence).
  destruct Hg as (_ & Hq & Hp). rewrite Hq, app_nil_r in Hf.
  simpl in Hr. rewrite app_nil_r in Hr.
  repeat split; congruence.
Qed.

Lemma X8_idle_means_drained_witness :
  let cfg := default_config (lit "1") in
  let ins := [CallSpeak (lit "A"); CallSpeak (lit "B")]
               ++ inputs_of Basic SynthFails
               ++ inputs_of Basic (Plays (lit "b.wav")) in
  let st := run Basic cfg ins qinit in
  isSpeaking st = false /\ synthesized (log st) = [lit "A"; lit "B"]
  /\ queue st = []
  /\ released (log st) = [lit "b.wav"]
  /\ disk st = [lit "b.wav"].
Proof.
  intros cfg ins st.
  destruct (@X8_idle_means_drained Basic cfg ins eq_refl)
    as (_ & Hq & _ & Hr & Hs).
  split; [reflexivity|]. split; [exact Hs|]. split; [exact Hq|].
  split; [exact Hr | reflexivity].
Defined.

Lemma settled_app l1 l2 : settled (l1 ++ l2) = settled l1 ++ settled l2.
Proof. apply flat_map_app. Qed.

Lemma loop_top_settled st :
  loops st = [] ->
  settled (log st) = shifted (log st) ->
  settled (log (loop_top st)) ++ unplayed (loop_top st)
  = shifted (log (loop_top st)).
Proof.
  intros Hl Hp. destruct st as [q sp lp pl dk ul lg]. simpl in *. subst.
  unfold loop_top, unplayed. destruct q as [|next rest]; simpl;
    rewrite ?settled_app; log_simpl.
  - exact Hp.
  - rewrite Hp. reflexivity.
Qed.

Lemma step_settled v cfg st i :
  Inv st ->
  settled (log st) ++ unplayed st = shifted (log st) ->
  settled (log (step v cfg st i)) ++ unplayed (step v cfg st i)
  = shifted (log (step v cfg st i)).
Proof.
  intros HI HP. destruct HI as [Hg _ _ _ _ _ _ _].
  destruct i as [text|k r ok|k ok1 ok2| |k ok0]; simpl in *.
  - unfold speak. destruct (prepare v cfg text) as [c|]; [|exact HP].
    shapes st Hg; unfold unplayed; simpl; rewrite ?settled_app; log_simpl;
      rewrite <- ?HP; rewrite ?app_nil_r; reflexivity.
  - shapes st Hg; rewrite ?take_nth_single; try destruct k; simpl;
      try solve [unfold unplayed; simpl; rewrite ?app_nil_r; exact HP].
    unfold after_tts, play_or_catch, unplayed.
    destruct r as [p|]; [destruct v; [|destruct ok]|]; simpl;
      try destruct q; simpl; rewrite ?settled_app; log_simpl;
      rewrite <- ?HP; rewrite ?settled_app; simpl; rewrite ?app_nil_r;
      reflexivity.
  - shapes st Hg; rewrite ?take_nth_single; try destruct k; simpl;
      try solve [unfold unplayed; simpl; rewrite ?app_nil_r; exact HP].
    unfold after_probe, play_or_catch, unplayed.
    destruct (ok1 && ok2); simpl; try destruct q; simpl;
      rewrite ?settled_app; log_simpl;
      rewrite <- ?HP; rewrite ?settled_app; simpl; rewrite ?app_nil_r;
      reflexivity.
  - shapes st Hg; simpl;
      try solve [unfold unplayed; simpl; rewrite ?app_nil_r; exact HP].
    unfold unplayed. destruct q; simpl; rewrite ?settled_app; log_simpl;
      rewrite <- ?HP; rewrite ?app_nil_r; reflexivity.
  - destruct (take_nth k (unlinking st)) as [[p others]|]; [|exact HP].
    unfold unlink_settles, unplayed in *.
    destruct ok0; simpl; rewrite ?settled_app; log_simpl; exact HP.
Qed.

Lemma run_settled v cfg ins : forall st,
  Inv st ->
  settled (log st) ++ unplayed st = shifted (log st) ->
  settled (log (run v cfg ins st)) ++ unplayed (run v cfg ins st)
  = shifted (log (run v cfg ins st)).
Proof.
  unfold run. induction ins as [|i ins IH]; intros st HI HP; [exact HP|].
  simpl. apply IH; auto using step_Inv, step_settled.
Qed.

(** X9. Every item ends exactly once: the items that were played or
    logged as failed, in the order of these ends, are the shifted items
    in their order, less the one item in flight that is neither yet.  So
    no item is played twice, none is both played and logged as failed,
    and none is passed over. *)
Theorem X9_each_item_ends_once (v : variant) (cfg : config) (ins : list input) :
  let st := run v cfg ins qinit in
  settled (log st) ++ unplayed st = shifted (log st)
  /\ length (played (log st)) + length (errors (log st))
     = length (settled (log st)).
Proof.
  intros st. split.
  - apply run_settled; [apply Inv_qinit | reflexivity].
  - generalize (log st). intros l. induction l as [|e l IH]; [reflexivity|].
    destruct e; simpl; rewrite ?length_app; simpl; lia.
Qed.

(** * The bot as a whole *)

(** The two halves of [ensureJoinedVC] make up the whole. *)
Lemma ensureJoinedVC_split v cfg who ready st :
  ensureJoinedVC v cfg who ready st
  = match ensureJoinedVC_begin v cfg who st with
    | (Returned r, st') => (r, st')
    | (Awaiting vc, st') => ensureJoinedVC_resume vc ready st'
    end.
Proof.
  unfold ensureJoinedVC, ensureJoinedVC_begin.
  destruct (resolve_vc cfg who) as [vc|]; [|destruct (FIXED_VC_ID cfg); reflexivity].
  destruct (match connection st with
            | Some c => jseqb (channelId c) (ch_id vc)
            | None => false
            end); reflexivity.
Qed.

Ltac vfin H1 H2 :=
  unfold live, joins_alone, current_uid, destroy_current, joinVoiceChannel,
    vcall_do, set_connection in *; simpl in *;
  repeat (progress (rewrite ?live_from_app, ?joins_alone_from_app, ?H1, ?H2;
                    simpl; rewrite ?Nat.eqb_refl; simpl));
  auto.

Lemma begin_enhanced cfg who st :
  live st = current_uid st /\ joins_alone st = true ->
  live (snd (ensureJoinedVC_begin Enhanced cfg who st))
  = current_uid (snd (ensureJoinedVC_begin Enhanced cfg who st))
  /\ joins_alone (snd (ensureJoinedVC_begin Enhanced cfg who st)) = true.
Proof.
  intros [Hl Hj]. destruct st as [conn nu cs]. unfold ensureJoinedVC_begin.
  destruct (resolve_vc cfg who) as [vc|].
  - destruct conn as [c0|]; simpl.
    + destruct (jseqb (channelId c0) (ch_id vc)); simpl; [auto|]. vfin Hl Hj.
    + vfin Hl Hj.
  - destruct (FIXED_VC_ID cfg); simpl; [|auto]. vfin Hl Hj.
Qed.

Lemma resume_enhanced vc ready st :
  live st = current_uid st /\ joins_alone st = true ->
  live (snd (ensureJoinedVC_resume vc ready st))
  = current_uid (snd (ensureJoinedVC_resume vc ready st))
  /\ joins_alone (snd (ensureJoinedVC_resume vc ready st)) = true.
Proof.
  intros [Hl Hj]. destruct st as [conn nu cs]. unfold ensureJoinedVC_resume.
  destruct ready, conn as [c0|], (ch_type vc), (ch_suppressed vc); simpl;
    vfin Hl Hj.
Qed.

Lemma leave_enhanced st :
  live st = current_uid st /\ joins_alone st = true ->
  live (leave st) = [] /\ connection (leave st) = None
  /\ joins_alone (leave st) = true.
Proof.
  intros [Hl Hj]. destruct st as [conn nu cs]. unfold leave.
  destruct conn as [c0|]; simpl; vfin Hl Hj.
Qed.

Lemma handler_continue_voice v cfg k ok b :
  b_voice (handler_continue v cfg k ok b) = b_voice b.
Proof.
  destruct k, ok; simpl; try reflexivity.
  destruct (cleanText (content m)); reflexivity.
Qed.

Lemma handler_continue_Inv v cfg k ok b :
  Inv (b_spk b) -> Inv (b_spk (handler_continue v cfg k ok b)).
Proof.
  intros H. destruct k, ok; simpl; try exact H.
  destruct (cleanText (content m)); simpl; [exact H|].
  apply speak_Inv. exact H.
Qed.

Lemma ensure_sync_voice v cfg who k b :
  b_voice (ensure_sync v cfg who k b)
  = snd (ensureJoinedVC_begin v cfg who (b_voice b)).
Proof.
  unfold ensure_sync.
  destruct (ensureJoinedVC_begin v cfg who (b_voice b)) as [[r|vc] vs]; simpl.
  - rewrite handler_continue_voice. reflexivity.
  - reflexivity.
Qed.

Lemma ensure_sync_Inv v cfg who k b :
  Inv (b_spk b) -> Inv (b_spk (ensure_sync v cfg who k b)).
Proof.
  intros H. unfold ensure_sync.
  destruct (ensureJoinedVC_begin v cfg who (b_voice b)) as [[r|vc] vs]; simpl.
  - apply handler_continue_Inv. exact H.
  - exact H.
Qed.

(** The speak queue keeps its invariant under every event of the bot. *)
Lemma bstep_Inv v cfg b e : Inv (b_spk b) -> Inv (b_spk (bstep v cfg b e)).
Proof.
  intros H. destruct e as [m hit|i hit|n|n ready|n ok|c]; simpl.
  - unfold on_message. destruct (author_bot m); [exact H|].
    destruct (msg_channel_type m); try exact H.
    destruct (negb _); [exact H|].
    destruct (looks_like_command _); [exact H|].
    unfold with_connection, call_ensure.
    destruct (connection (b_voice b)); [apply handler_continue_Inv; exact H|].
    destruct (FIXED_VC_ID cfg); [destruct hit|];
      try (apply ensure_sync_Inv; exact H); exact H.
  - unfold on_interaction. destruct (negb _); [exact H|].
    destruct (jseqb (commandName i) (lit "join")).
    { unfold command_ensure, call_ensure.
      destruct (FIXED_VC_ID cfg); [destruct (in_guild i), hit|];
        try (apply ensure_sync_Inv; exact H); exact H. }
    destruct (jseqb (commandName i) (lit "leave")).
    { destruct (connection (b_voice b)); exact H. }
    destruct (jseqb (commandName i) (lit "say")); [|exact H].
    unfold command_ensure, call_ensure.
    destruct (connection (b_voice b)); [apply handler_continue_Inv; exact H|].
    destruct (FIXED_VC_ID cfg); [destruct (in_guild i), hit|];
      try (apply ensure_sync_Inv; exact H); exact H.
  - destruct (take_nth n (b_waiting b)) as [[[who k|vc k|arg] rest]|]; try exact H.
    apply ensure_sync_Inv. exact H.
  - destruct (take_nth n (b_waiting b)) as [[[who k|vc k|arg] rest]|]; try exact H.
    destruct (ensureJoinedVC_resume vc ready (b_voice b)) as [r vs].
    apply handler_continue_Inv. exact H.
  - destruct (take_nth n (b_waiting b)) as [[[who k|vc k|arg] rest]|]; try exact H.
    destruct ok; simpl; [apply speak_Inv|]; exact H.
  - apply step_Inv. exact H.
Qed.

(** In [src/index.js] the live connections stay the one in [connection]
    under every event of the bot. *)
Lemma bstep_enhanced cfg b e :
  live (b_voice b) = current_uid (b_voice b) /\ joins_alone (b_voice b) = true ->
  live (b_voice (bstep Enhanced cfg b e))
  = current_uid (b_voice (bstep Enhanced cfg b e))
  /\ joins_alone (b_voice (bstep Enhanced cfg b e)) = true.
Proof.
  intros H. destruct e as [m hit|i hit|n|n ready|n ok|c]; simpl.
  - unfold on_message. destruct (author_bot m); [exact H|].
    destruct (msg_channel_type m); try exact H.
    destruct (negb _); [exact H|].
    destruct (looks_like_command _); [exact H|].
    unfold with_connection, call_ensure.
    destruct (connection (b_voice b)) eqn:Ec;
      [rewrite handler_continue_voice; exact H|].
    destruct (FIXED_VC_ID cfg); [destruct hit|];
      rewrite ?ensure_sync_voice; try exact H; apply begin_enhanced; exact H.
  - unfold on_interaction. destruct (negb _); [exact H|].
    destruct (jseqb (commandName i) (lit "join")).
    { unfold command_ensure, call_ensure.
      destruct (FIXED_VC_ID cfg); [destruct (in_guild i), hit|];
        rewrite ?ensure_sync_voice; try exact H; apply begin_enhanced; exact H. }
    destruct (jseqb (commandName i) (lit "leave")).
    { destruct (connection (b_voice b)) eqn:Ec; simpl; [|exact H].
      destruct (@leave_enhanced (b_voice b) H) as (Hl & Hc & Hj).
      unfold current_uid. rewrite Hl, Hc. auto. }
    destruct (jseqb (commandName i) (lit "say")); [|exact H].
    unfold command_ensure, call_ensure.
    destruct (connection (b_voice b)) eqn:Ec;
      [rewrite handler_continue_voice; exact H|].
    destruct (FIXED_VC_ID cfg); [destruct (in_guild i), hit|];
      rewrite ?ensure_sync_voice; try exact H; apply begin_enhanced; exact H.
  - destruct (take_nth n (b_waiting b)) as [[[who k|vc k|arg] rest]|]; try exact H.
    rewrite ensure_sync_voice. apply begin_enhanced. exact H.
  - destruct (take_nth n (b_waiting b)) as [[[who k|vc k|arg] rest]|]; try exact H.
    pose proof (@resume_enhanced vc ready (b_voice b) H) as R.
    destruct (ensureJoinedVC_resume vc ready (b_voice b)) as [r vs].
    rewrite handler_continue_voice. exact R.
  - destruct (take_nth n (b_waiting b)) as [[[who k|vc k|arg] rest]|]; try exact H.
    destruct ok; exact H.
  - exact H.
Qed.

Lemma brun_Inv v cfg evs : forall b,
  Inv (b_spk b) -> Inv (b_spk (brun v cfg evs b)).
Proof.
  unfold brun. induction evs as [|e evs IH]; intros b H; [exact H|].
  simpl. apply IH. apply bstep_Inv. exact H.
Qed.

Lemma brun_enhanced cfg evs : forall b,
  live (b_voice b) = current_uid (b_voice b) /\ joins_alone (b_voice b) = true ->
  live (b_voice (brun Enhanced cfg evs b))
  = current_uid (b_voice (brun Enhanced cfg evs b))
  /\ joins_alone (b_voice (brun Enhanced cfg evs b)) = true.
Proof.
  unfold brun. induction evs as [|e evs IH]; intros b H; [exact H|].
  simpl. apply IH. apply bstep_enhanced. exact H.
Qed.

(** *** Agreement with the handlers taken in one piece *)

(** When nothing else happens in between and the acknowledgement is
    delivered, the turns of the message handler and of the [say] command
    (used in a guild) add up to [onMessageCreate] and [onSay]. *)
Lemma on_message_in_one_piece v cfg m ready b :
  b_waiting b = [] ->
  let b' := brun v cfg [OnMessage m true; ReadySettled 0 ready] b in
  mkW (b_voice b') (b_spk b')
  = onMessageCreate v cfg m ready (mkW (b_voice b) (b_spk b)).
Proof.
  intros Hw. destruct b as [vs q ws rs]. simpl in Hw. subst ws.
  unfold brun, onMessageCreate. simpl. unfold on_message. simpl.
  destruct (author_bot m); [reflexivity|].
  destruct (msg_channel_type m); try reflexivity.
  destruct (negb _); [reflexivity|].
  destruct (looks_like_command _); [reflexivity|].
  unfold with_connection, connection_or_join, call_ensure. simpl.
  destruct (connection vs) as [c|] eqn:Ec.
  - simpl. unfold message_text.
    destruct (cleanText (content m)); reflexivity.
  - rewrite ensureJoinedVC_split. unfold ensure_sync. simpl.
    assert (E : match FIXED_VC_ID cfg with
                | Some _ => ensure_sync v cfg (msg_who m) (KMessage m)
                              (mkBot vs q [] rs)
                | None => ensure_sync v cfg (msg_who m) (KMessage m)
                            (mkBot vs q [] rs)
                end = ensure_sync v cfg (msg_who m) (KMessage m) (mkBot vs q [] rs))
      by (destruct (FIXED_VC_ID cfg); reflexivity).
    unfold ensure_sync in E. simpl in E. rewrite E. clear E.
    destruct (ensureJoinedVC_begin v cfg (msg_who m) vs) as [[r|vc] vs1]; simpl.
    + destruct r as [c|]; simpl; [|reflexivity].
      unfold message_text. destruct (cleanText (content m)); reflexivity.
    + destruct (ensureJoinedVC_resume vc ready vs1) as [r vs2]. simpl.
      destruct r as [c|]; simpl; [|reflexivity].
      unfold message_text. destruct (cleanText (content m)); reflexivity.
Qed.

Lemma on_say_in_one_piece v cfg i ready b :
  b_waiting b = [] ->
  isChatInputCommand i = true ->
  in_guild i = true ->
  commandName i = lit "say" ->
  let b' := brun v cfg [OnInteraction i true; ReadySettled 0 ready;
                        ReplySettled 0 true] b in
  mkW (b_voice b') (b_spk b')
  = onSay v cfg (opt_text i) (int_who i) ready (mkW (b_voice b) (b_spk b)).
Proof.
  intros Hw Hc Hg Hn. destruct b as [vs q ws rs]. simpl in Hw. subst ws.
  assert (E : command_ensure v cfg i (KSay (opt_text i)) true (mkBot vs q [] rs)
              = ensure_sync v cfg (int_who i) (KSay (opt_text i))
                  (mkBot vs q [] rs)).
  { unfold command_ensure, call_ensure. rewrite Hg.
    destruct (FIXED_VC_ID cfg); reflexivity. }
  unfold brun, onSay. simpl. unfold on_interaction. rewrite Hc, Hn. simpl.
  unfold connection_or_join. simpl.
  destruct (connection vs) as [c|] eqn:Ec.
  - simpl. unfold say_arg. destruct v; reflexivity.
  - rewrite E, ensureJoinedVC_split. unfold ensure_sync. simpl.
    destruct (ensureJoinedVC_begin v cfg (int_who i) vs) as [[r|vc] vs1]; simpl.
    + destruct r as [c|]; simpl; [|reflexivity].
      unfold say_arg. destruct v; reflexivity.
    + destruct (ensureJoinedVC_resume vc ready vs1) as [r vs2]. simpl.
      destruct r as [c|]; simpl; [|reflexivity].
      unfold say_arg. destruct v; reflexivity.
Qed.

(** *** Properties over every interleaving *)

Lemma destroy_current_connection st : connection (destroy_current st) = None.
Proof.
  unfold destroy_current. destruct (connection st) eqn:E; [reflexivity|exact E].
Qed.

(** X10. Under every interleaving of messages, commands, settled
    fetches, readiness waits and acknowledgements, completions of the
    speak loop and completions of unlinks, the queue of the whole bot
    stays sound: at most one consumer loop, one exactly when [isSpeaking]
    is set; no playback started before the previous one reached Idle;
    nothing pushed is lost or reordered; no item is shifted between the
    return of an audio file and the call of [fs.unlink] on it. *)
Theorem X10_bot_queue_is_sound (v : variant) (cfg : config) (evs : list event) :
  let q := b_spk (brun v cfg evs binit) in
  length (loops q) <= 1
  /\ (isSpeaking q = true <-> length (loops q) = 1)
  /\ plays_apart false (log q) = true
  /\ shifted (log q) ++ queue q = pushed (log q)
  /\ unreleased_after [] (log q) = Some (flat_map held (loops q)).
Proof.
  intros q.
  assert (HI : Inv q) by (apply brun_Inv; apply Inv_qinit).
  destruct (@good_loops q (inv_good HI)) as [Hle Hiff].
  split; [exact Hle|]. split; [exact Hiff|]. split; [exact (inv_apart HI)|].
  split; [exact (inv_fifo HI) | exact (inv_unreleased HI)].
Qed.

(** X11. In [src/index.js], under every such interleaving (joins that
    overlap, a leave during a join, a readiness wait that fails late), at
    most one voice connection is live, it is the one in [connection], and
    [joinVoiceChannel] is never called while a connection is live. *)
Theorem X11_enhanced_one_connection_interleaved (cfg : config)
    (evs : list event) :
  let vs := b_voice (brun Enhanced cfg evs binit) in
  length (live vs) <= 1 /\ live vs = current_uid vs /\ joins_alone vs = true.
Proof.
  intros vs.
  destruct (@brun_enhanced cfg evs binit) as [Hl Hj]; [split; reflexivity|].
  fold vs in Hl, Hj. split; [|split; assumption].
  rewrite Hl. unfold current_uid. destruct (connection vs); simpl; lia.
Qed.

(** X12. A readiness wait that fails ends with [connection] cleared,
    and in [src/index.js] with no live connection at all, whichever call
    created the connection that is current by then: the [catch] block
    destroys the module-level [connection], not the one it waited for. *)
Theorem X12_failed_wait_disconnects (v : variant) (cfg : config)
    (evs : list event) (n : nat) (vc : channel) (k : cont)
    (rest : list waiter) :
  let b := brun v cfg evs binit in
  take_nth n (b_waiting b) = Some (WReady vc k, rest) ->
  let b' := bstep v cfg b (ReadySettled n false) in
  connection (b_voice b') = None
  /\ (v = Enhanced -> live (b_voice b') = []).
Proof.
  intros b Hn b'. subst b'. simpl. rewrite Hn.
  unfold ensureJoinedVC_resume. rewrite handler_continue_voice. simpl.
  split.
  - apply destroy_current_connection.
  - intros ->. destruct (@brun_enhanced cfg evs binit) as [Hl Hj];
      [split; reflexivity|]. fold b in Hl, Hj.
    destruct (b_voice b) as [conn nu cs]. destruct conn as [c0|]; vfin Hl Hj.
Qed.

Lemma X12_failed_wait_disconnects_witness :
  let x := mkChannel (lit "100") GuildVoice (lit "1") false in
  let y := mkChannel (lit "200") GuildVoice (lit "1") false in
  let join := fun c => mkInteraction true (lit "join") [] true (mkCaller None (Some c)) in
  let cfg := default_config (lit "9") in
  let b := brun Enhanced cfg
             [OnInteraction (join x) true; OnInteraction (join y) true] binit in
  let b' := bstep Enhanced cfg b (ReadySettled 0 false) in
  current_uid (b_voice b) = [1]
  /\ b_waiting b' = [WReady y KJoin]
  /\ connection (b_voice b') = None
  /\ destroys (vcalls (b_voice b')) = [0; 1].
Proof.
  intros x y join cfg b b'.
  destruct (@X12_failed_wait_disconnects Enhanced cfg
              [OnInteraction (join x) true; OnInteraction (join y) true]
              0 x KJoin [WReady y KJoin] eq_refl) as [H _].
  split; [reflexivity|]. split; [reflexivity|]. split; [exact H | reflexivity].
Defined.

(** *** The handlers *)

(** X13. The [leave] command, in whatever state the bot is: afterwards
    [connection] is cleared, the queue is as it was, the reply says
    whether there was a connection, and in [src/index.js] no connection
    is live. *)
Theorem X13_leave_disconnects (v : variant) (cfg : config) (evs : list event)
    (i : interaction) (hit : bool) :
  isChatInputCommand i = true ->
  commandName i = lit "leave" ->
  let b := brun v cfg evs binit in
  let b' := bstep v cfg b (OnInteraction i hit) in
  connection (b_voice b') = None
  /\ b_spk b' = b_spk b
  /\ b_waiting b' = b_waiting b
  /\ b_replies b' = b_replies b
                    ++ [if is_some (connection (b_voice b))
                        then msg_left else msg_not_connected]
  /\ (v = Enhanced -> live (b_voice b') = []).
Proof.
  intros Hc Hn b b'. subst b'. simpl. unfold on_interaction.
  rewrite Hc, Hn. simpl.
  destruct (connection (b_voice b)) as [c|] eqn:Ec; simpl.
  - split; [apply destroy_current_connection|]. repeat split.
    intros ->. destruct (@brun_enhanced cfg evs binit) as [Hl Hj];
      [split; reflexivity|]. fold b in Hl, Hj.
    apply (@leave_enhanced (b_voice b) (conj Hl Hj)).
  - split; [exact Ec|]. repeat split.
    intros ->. destruct (@brun_enhanced cfg evs binit) as [Hl Hj];
      [split; reflexivity|]. fold b in Hl, Hj.
    rewrite Hl. unfold current_uid. rewrite Ec. reflexivity.
Qed.

Lemma X13_leave_disconnects_witness :
  let x := mkChannel (lit "100") GuildVoice (lit "1") false in
  let who := mkCaller None (Some x) in
  let cfg := default_config (lit "9") in
  let evs := [OnInteraction (mkInteraction true (lit "join") [] true who) true;
              ReadySettled 0 true;
              OnInteraction (mkInteraction true (lit "leave") [] true who) true] in
  let b := brun Enhanced cfg evs binit in
  let b' := bstep Enhanced cfg b
              (OnInteraction (mkInteraction true (lit "leave") [] true who) true) in
  b_replies b' = [msg_joined Enhanced cfg (mkConn 0 (lit "100") (lit "1"));
                  msg_left; msg_not_connected]
  /\ live (b_voice b') = [].
Proof.
  intros x who cfg evs b b'.
  destruct (@X13_leave_disconnects Enhanced cfg evs
              (mkInteraction true (lit "leave") [] true who) true eq_refl eq_refl)
    as (_ & _ & _ & Hr & Hl).
  split; [exact Hr | exact (Hl eq_refl)].
Defined.

Lemma resume_result vc ready st r vs :
  ensureJoinedVC_resume vc ready st = (r, vs) ->
  forall c, r = Some c -> connection vs = Some c.
Proof.
  unfold ensureJoinedVC_resume. intros H c ->.
  destruct ready; [|discriminate].
  destruct (connection st) as [c0|]; [|discriminate].
  injection H as H <-. exact H.
Qed.

Lemma begin_result v cfg who st r vs :
  ensureJoinedVC_begin v cfg who st = (Returned r, vs) ->
  forall c, r = Some c -> connection vs = Some c.
Proof.
  unfold ensureJoinedVC_begin. intros H c ->.
  destruct (resolve_vc cfg who) as [vc|].
  - destruct (match connection st with
              | Some c0 => jseqb (channelId c0) (ch_id vc)
              | None => false
              end); [|discriminate].
    injection H as H <-. exact H.
  - destruct (FIXED_VC_ID cfg); discriminate.
Qed.

(** A handler that is past [ok] changes the queue state only with a
    connection in hand. *)
Lemma handler_continue_spk v cfg k ok b :
  b_spk (handler_continue v cfg k ok b) <> b_spk b -> ok <> None.
Proof.
  intros H E. subst ok. apply H. destruct k; reflexivity.
Qed.

Lemma ensure_sync_spk v cfg who k b :
  b_spk (ensure_sync v cfg who k b) <> b_spk b ->
  connection (b_voice (ensure_sync v cfg who k b)) <> None.
Proof.
  rewrite ensure_sync_voice. unfold ensure_sync.
  destruct (ensureJoinedVC_begin v cfg who (b_voice b)) as [[r|vc] vs] eqn:E;
    simpl; [|congruence].
  intros H. apply (@handler_continue_spk v cfg k r (set_voice vs b)) in H.
  destruct r as [c|]; [|congruence].
  rewrite (@begin_result v cfg who (b_voice b) (Some c) vs E c eq_refl).
  discriminate.
Qed.

(** X14. Apart from the turn in which the acknowledgement of [say]
    arrives, a turn of the bot changes the queue state through a handler
    only if [connection] is set when the turn ends: no message is
    enqueued by a handler that found and obtained no connection. *)
Theorem X14_handlers_enqueue_only_when_connected (v : variant) (cfg : config)
    (b : bot) (e : event) :
  (forall n ok, e <> ReplySettled n ok) ->
  (forall c, e <> LoopSettled c) ->
  b_spk (bstep v cfg b e) <> b_spk b ->
  connection (b_voice (bstep v cfg b e)) <> None.
Proof.
  intros Hr Hl. destruct e as [m hit|i hit|n|n ready|n ok|c]; simpl.
  - unfold on_message. destruct (author_bot m); [congruence|].
    destruct (msg_channel_type m); try congruence.
    destruct (negb _); [congruence|].
    destruct (looks_like_command _); [congruence|].
    unfold with_connection, call_ensure.
    destruct (connection (b_voice b)) eqn:Ec.
    + rewrite handler_continue_voice. congruence.
    + destruct (FIXED_VC_ID cfg); [destruct hit|];
        try apply ensure_sync_spk. simpl. congruence.
  - unfold on_interaction. destruct (negb _); [congruence|].
    destruct (jseqb (commandName i) (lit "join")).
    { unfold command_ensure, call_ensure.
      destruct (FIXED_VC_ID cfg); [destruct (in_guild i), hit|];
        try apply ensure_sync_spk; simpl; congruence. }
    destruct (jseqb (commandName i) (lit "leave")).
    { destruct (connection (b_voice b)); simpl; congruence. }
    destruct (jseqb (commandName i) (lit "say")); [|congruence].
    unfold command_ensure, call_ensure.
    destruct (connection (b_voice b)) eqn:Ec.
    + rewrite handler_continue_voice. congruence.
    + destruct (FIXED_VC_ID cfg); [destruct (in_guild i), hit|];
        try apply ensure_sync_spk; simpl; congruence.
  - destruct (take_nth n (b_waiting b)) as [[[who k|vc k|arg] rest]|];
      try congruence.
    intros H. pose proof (@ensure_sync_spk v cfg who k (set_waiting rest b) H) as G.
    exact G.
  - destruct (take_nth n (b_waiting b)) as [[[who k|vc k|arg] rest]|];
      try congruence.
    destruct (ensureJoinedVC_resume vc ready (b_voice b)) as [r vs] eqn:E.
    rewrite handler_continue_voice. simpl. intros H.
    apply (@handler_continue_spk v cfg k r (set_voice vs (set_waiting rest b)))
      in H.
    destruct r as [c|]; [|congruence].
    rewrite (@resume_result vc ready (b_voice b) (Some c) vs E c eq_refl).
    discriminate.
  - exfalso. exact (Hr n ok eq_refl).
  - exfalso. exact (Hl c eq_refl).
Qed.

Lemma X14_handlers_enqueue_only_when_connected_witness :
  let x := mkChannel (lit "100") GuildVoice (lit "1") false in
  let who := mkCaller None (Some x) in
  let cfg := default_config (lit "9") in
  let m := mkMessage false GuildText (lit "9") (lit "hi") (lit "Ann") who in
  let b := brun Basic cfg [OnMessage m true] binit in
  let b' := bstep Basic cfg b (ReadySettled 0 true) in
  pushed (log (b_spk b)) = []
  /\ pushed (log (b_spk b')) = [lit "Ann said: hi"]
  /\ connection (b_voice b') <> None.
Proof.
  intros x who cfg m b b'.
  split; [reflexivity|]. split; [reflexivity|].
  apply (@X14_handlers_enqueue_only_when_connected Basic cfg b
           (ReadySettled 0 true)).
  - intros n ok. discriminate.
  - intros c. discriminate.
  - vm_compute. discriminate.
Defined.

(** X15. The message handler acts on a message only if its author is not
    a bot, it was posted in a guild text channel, that channel is the
    configured target, and its content does not start with [!] or [/]:
    any other message leaves the whole bot as it was. *)
Theorem X15_message_guards (v : variant) (cfg : config) (m : message)
    (hit : bool) (b : bot) :
  bstep v cfg b (OnMessage m hit) <> b ->
  author_bot m = false
  /\ msg_channel_type m = GuildText
  /\ msg_channel_id m = TARGET_TEXT_CHANNEL_ID cfg
  /\ (forall c rest, content m = c :: rest -> c <> 33%N /\ c <> 47%N).
Proof.
  simpl. unfold on_message. intros H.
  destruct (author_bot m); [congruence|].
  destruct (msg_channel_type m); try congruence.
  destruct (jseqb (msg_channel_id m) (TARGET_TEXT_CHANNEL_ID cfg)) eqn:Ej;
    simpl in H; [|congruence].
  destruct (looks_like_command (content m)) eqn:Ec; [congruence|].
  split; [reflexivity|]. split; [reflexivity|].
  split; [apply jseqb_eq; exact Ej|].
  intros c rest Hcont. rewrite Hcont in Ec. simpl in Ec.
  apply orb_false_iff in Ec. destruct Ec as [E1 E2].
  split; intros ->; discriminate.
Qed.

Lemma X15_message_guards_witness :
  let x := mkChannel (lit "100") GuildVoice (lit "1") false in
  let who := mkCaller None (Some x) in
  let cfg := default_config (lit "9") in
  let m := mkMessage false GuildText (lit "9") (lit "hi") (lit "Ann") who in
  bstep Basic cfg binit (OnMessage m true) <> binit
  /\ msg_channel_id m = TARGET_TEXT_CHANNEL_ID cfg
  /\ bstep Basic cfg binit
       (OnMessage (mkMessage false GuildText (lit "9") (lit "!hi") (lit "Ann") who)
          true) = binit.
Proof.
  intros x who cfg m.
  assert (H : bstep Basic cfg binit (OnMessage m true) <> binit)
    by (vm_compute; discriminate).
  destruct (@X15_message_guards Basic cfg m true binit H) as (_ & _ & Hid & _).
  split; [exact H|]. split; [exact Hid | reflexivity].
Defined.

(** X16. A command never changes the queue state in its own turn, and
    [say] enqueues nothing when its acknowledgement fails: the text of a
    [say] is passed to [speak] only in the turn in which the
    acknowledgement has been delivered. *)
Theorem X16_say_waits_for_acknowledgement (v : variant) (cfg : config)
    (b : bot) (i : interaction) (hit : bool) (n : nat) :
  b_spk (bstep v cfg b (OnInteraction i hit)) = b_spk b
  /\ b_spk (bstep v cfg b (ReplySettled n false)) = b_spk b
  /\ b_voice (bstep v cfg b (ReplySettled n false)) = b_voice b.
Proof.
  split; [|split].
  - simpl. unfold on_interaction. destruct (negb _); [reflexivity|].
    assert (E : forall who k, b_spk (call_ensure v cfg who k hit b) = b_spk b
                              \/ k <> KJoin /\ (forall t, k <> KSay t)).
    { intros who k. unfold call_ensure, ensure_sync.
      destruct k as [|t|m]; [left|left|right; split; intros; discriminate];
        destruct (FIXED_VC_ID cfg); [destruct hit| |destruct hit|];
        try reflexivity;
        destruct (ensureJoinedVC_begin _ _ _ _) as [[[c|]|vc] vs]; reflexivity. }
    assert (E' : forall k, b_spk (command_ensure v cfg i k hit b) = b_spk b
                           \/ k <> KJoin /\ (forall t, k <> KSay t)).
    { intros k. unfold command_ensure.
      destruct (FIXED_VC_ID cfg); [destruct (in_guild i)|];
        try apply E. left. reflexivity. }
    destruct (jseqb (commandName i) (lit "join")).
    { destruct (E' KJoin) as [H|[H _]]; [exact H | congruence]. }
    destruct (jseqb (commandName i) (lit "leave")).
    { destruct (connection (b_voice b)); reflexivity. }
    destruct (jseqb (commandName i) (lit "say")); [|reflexivity].
    destruct (connection (b_voice b)); [reflexivity|].
    destruct (E' (KSay (opt_text i))) as [H|[_ H]];
      [exact H | exfalso; exact (H _ eq_refl)].
  - simpl. destruct (take_nth n (b_waiting b)) as [[[who k|vc k|arg] rest]|];
      reflexivity.
  - simpl. destruct (take_nth n (b_waiting b)) as [[[who k|vc k|arg] rest]|];
      reflexivity.
Qed.

(** X17. While [connection] is set, a message and a [say] command use
    it as it is, wherever their author is: they neither join nor leave
    nor change the voice state in any way.  Only [join] moves the bot. *)
Theorem X17_only_join_moves_the_bot (v : variant) (cfg : config) (b : bot)
    (c : voice_connection) (m : message) (i : interaction) (hit : bool) :
  connection (b_voice b) = Some c ->
  b_voice (bstep v cfg b (OnMessage m hit)) = b_voice b
  /\ (commandName i = lit "say" ->
      b_voice (bstep v cfg b (OnInteraction i hit)) = b_voice b).
Proof.
  intros Hc. split.
  - simpl. unfold on_message. destruct (author_bot m); [reflexivity|].
    destruct (msg_channel_type m); try reflexivity.
    destruct (negb _); [reflexivity|].
    destruct (looks_like_command _); [reflexivity|].
    unfold with_connection. rewrite Hc. apply handler_continue_voice.
  - intros Hn. simpl. unfold on_interaction. rewrite Hn.
    destruct (negb _); [reflexivity|]. simpl.
    rewrite Hc. reflexivity.
Qed.

Lemma X17_only_join_moves_the_bot_witness :
  let x := mkChannel (lit "100") GuildVoice (lit "1") false in
  let y := mkChannel (lit "200") GuildVoice (lit "1") false in
  let cfg := default_config (lit "9") in
  let b := brun Enhanced cfg
             [OnInteraction (mkInteraction true (lit "join") [] true (mkCaller None (Some x))) true;
              ReadySettled 0 true] binit in
  let m := mkMessage false GuildText (lit "9") (lit "hi") (lit "Ann")
             (mkCaller None (Some y)) in
  connection (b_voice b) = Some (mkConn 0 (lit "100") (lit "1"))
  /\ b_voice (bstep Enhanced cfg b (OnMessage m true)) = b_voice b.
Proof.
  intros x y cfg b m. split; [reflexivity|].
  destruct (@X17_only_join_moves_the_bot Enhanced cfg b
              (mkConn 0 (lit "100") (lit "1")) m
              (mkInteraction true (lit "say") [] true (mkCaller None (Some y))) true
              eq_refl) as [H _].
  exact H.
Defined.

(** * The synthesizers and their files *)

Lemma tts_path_ext dir now rnd e1 e2 :
  tts_path dir now rnd e1 = tts_path dir now rnd e2 -> e1 = e2.
Proof.
  unfold tts_path. intros H.
  repeat (apply app_inv_head in H). exact H.
Qed.

(** Take a statement about a synthesizer apart and settle each part: a
    result that cannot be, a file that was created or unlinked, a file
    at another path. *)
Ltac synth_cases :=
  repeat match goal with
  | |- _ /\ _ => split
  | |- _ <-> _ => split
  | |- forall _, _ => intro
  end;
  try discriminate;
  try reflexivity;
  try congruence;
  try (match goal with
       | H : Some (Response _ _) = Some (Response _ _) |- _ =>
           injection H as ? ?; subst; discriminate
       end);
  try (match goal with
       | H : Settles (Resolved _) = Settles (Resolved _) |- _ =>
           injection H as <-
       end);
  try reflexivity;
  repeat (rewrite fs_mem_unlink || rewrite fs_mem_create);
  rewrite ?jseqb_refl;
  try reflexivity;
  try (match goal with
       | H : ?q <> ?p |- _ => rewrite ?(jseqb_neq H); reflexivity
       end).





Lemma caf_not_wav dir now rnd :
  tts_path dir now rnd (lit ".caf") <> tts_path dir now rnd (lit ".wav").
Proof. intros H. apply tts_path_ext in H. discriminate. Qed.

Lemma wav_not_caf dir now rnd :
  tts_path dir now rnd (lit ".wav") <> tts_path dir now rnd (lit ".caf").
Proof. intros H. apply tts_path_ext in H. discriminate. Qed.

Ltac fs_simpl :=
  repeat (rewrite fs_mem_unlink || rewrite fs_mem_create);
  rewrite ?jseqb_refl,
    ?(jseqb_neq (@caf_not_wav _ _ _)),
    ?(jseqb_neq (@wav_not_caf _ _ _));
  simpl.

(** X20. [ttsToWav] resolves exactly when both tools succeed, with the
    path of the WAV file.  Whatever was at its two paths before, the CAF
    file exists afterwards only if [say.export] failed and left it, and
    the WAV file exists only if [afconvert] wrote it (succeeding, or
    failing and leaving it): the intermediate CAF file is removed on the
    success path and on the failure path of the conversion.  No other
    file is touched. *)
Theorem X20_ttsToWav_files (dir now rnd : jsstring)
    (export convert : tool_outcome) (fs : list path) :
  let caf := tts_path dir now rnd (lit ".caf") in
  let wav := tts_path dir now rnd (lit ".wav") in
  let r := fst (ttsToWav dir now rnd export convert fs) in
  let fs' := snd (ttsToWav dir now rnd export convert fs) in
  (r = Resolved wav <-> export = ToolOk /\ convert = ToolOk)
  /\ fs_mem caf fs' = match export with ToolFails true => true | _ => false end
  /\ fs_mem wav fs' = match export, convert with
                      | ToolOk, ToolOk => true
                      | ToolOk, ToolFails true => true
                      | _, _ => false
                      end
  /\ (forall q, q <> caf -> q <> wav -> fs_mem q fs' = fs_mem q fs).
Proof.
  intros caf wav r fs'. subst r fs'. unfold ttsToWav. fold caf wav.
  destruct export as [|[|]]; [destruct convert as [|[|]]| |]; simpl;
    (split; [split; [try discriminate; auto | intros [? ?]; congruence]|]);
    (split; [subst caf wav; fs_simpl; reflexivity|]);
    (split; [subst caf wav; fs_simpl; reflexivity|]);
    intros q Hc Hw; repeat (rewrite fs_mem_unlink || rewrite fs_mem_create);
    rewrite ?(jseqb_neq Hc), ?(jseqb_neq Hw); reflexivity.
Qed.

